(** * Vorple prompt module (src/vorple/prompt.ts)

    A shallow embedding of the prompt module: the registry of input
    filters, the command and keypress queues, and the asynchronous
    routine that runs a line of input through the registered filters.

    The module-level arrays and the parts of the host the module talks to
    (Haven's input engine, the layout module's UI lock, the debug module's
    console) are collected in one [State] record that every function
    threads explicitly; what a function does to the outside world is
    returned as a list of [event]s, oldest first. *)

From Stdlib Require Import List String Ascii ZArith Bool Arith Lia.
Import ListNotations.
Local Open Scope string_scope.
Local Open Scope list_scope.

(** ** JavaScript values *)

Module Js.

(** The values a filter can hand back.  [JObject has_then] is an object
    that is not itself awaited any further: [has_then] tells whether
    the expression ["then" in obj] holds for it (a [then] property that
    is not callable, so that promise resolution does not follow it). *)
Inductive value : Type :=
| JUndefined
| JNull
| JBool (b : bool)
| JNumber (n : Z)
| JString (s : string)
| JFunction
| JObject (has_then : bool)
| JError (message : string).

(** The [typeof] operator. *)
Definition typeof (v : value) : string :=
  match v with
  | JUndefined => "undefined"
  | JNull      => "object"
  | JBool _    => "boolean"
  | JNumber _  => "number"
  | JString _  => "string"
  | JFunction  => "function"
  | JObject _  => "object"
  | JError _   => "object"
  end.

(** ["then" in v], for a [v] whose [typeof] is ["object"]. *)
Definition then_in (v : value) : bool :=
  match v with
  | JObject has_then => has_then
  | _ => false
  end.

(** [!!v] *)
Definition toBoolean (v : value) : bool :=
  match v with
  | JUndefined | JNull => false
  | JBool b   => b
  | JNumber n => negb (n =? 0)%Z
  | JString s => negb (s =? "")
  | JFunction | JObject _ | JError _ => true
  end.

(** A parameter with a default value: the default replaces [undefined]
    only. *)
Definition defaulted (v d : value) : value :=
  match v with
  | JUndefined => d
  | _ => v
  end.

(** [s.charCodeAt(0)]; [None] stands for [NaN], the answer for the empty
    string. *)
Definition charCodeAt0 (s : string) : option nat :=
  match s with
  | EmptyString => None
  | String c _  => Some (nat_of_ascii c)
  end.

(** A promise, by the way it was settled.  [Adopts inner] is a promise
    whose [resolve] was called with another promise (or thenable): it
    takes over the state of [inner].  [Unsettled] never settles. *)
Inductive promise : Type :=
| Fulfilled (v : value)
| Adopts (inner : promise)
| Rejected (reason : value)
| Unsettled.

(** How a computation ends: with a value, with a thrown value (for an
    async function, a rejected promise), or not at all. *)
Inductive completion (A : Type) : Type :=
| Normal (a : A)
| Throw (e : value)
| Suspended.
Arguments Normal {A} a.
Arguments Throw {A} e.
Arguments Suspended {A}.

(** What [await p] gives. *)
Fixpoint settle (p : promise) : completion value :=
  match p with
  | Fulfilled v => Normal v
  | Adopts inner => settle inner
  | Rejected r => Throw r
  | Unsettled => Suspended
  end.

(** What a call of a filter returns: a value that [Promise.resolve]
    wraps as it is, or a promise (or thenable) that it follows. *)
Inductive returned : Type :=
| Value (v : value)
| Promise (p : promise).

(** [await Promise.resolve( r )] *)
Definition awaited (r : returned) : completion value :=
  match r with
  | Value v => Normal v
  | Promise p => settle p
  end.

(** A whole call of a filter followed by the await of its result. *)
Definition resolved (c : completion returned) : completion value :=
  match c with
  | Normal r => awaited r
  | Throw e => Throw e
  | Suspended => Suspended
  end.

End Js.
Export Js.

(** ** Data model *)

(** [interface ParserCommand] *)
Record ParserCommand : Type := mkParserCommand {
  cmd : string;
  silent : bool
}.

(** The [type] field of [InputFilterMeta]. *)
Inductive InputType : Type := Line | Char.

(** [interface InputFilterMeta] *)
Record InputFilterMeta : Type := mkInputFilterMeta {
  input : string;
  original : string;
  type : InputType;
  userAction : bool;
  meta_silent : bool
}.

(** An input filter is a JavaScript function; the registry holds
    references to function objects, which [indexOf] compares by identity.
    A reference is a number; what the function does when called is given
    separately (the [body] of section [Filters] below). *)
Definition InputFilter : Type := nat.

(** The functions of this module that [init] registers as listeners. *)
Inductive listener : Type := RunCommandQueue | RunKeyQueue.

(** What the module does to its host, in the order it happens. *)
Inductive event : Type :=
| Block                          (* layout.block() *)
| Unblock                        (* layout.unblock() *)
| Invoked (i : nat) (filter : InputFilter) (arg : string)
          (meta : InputFilterMeta) (ui_blocked : bool)
                                 (* inputFilters[ i ]( arg, meta ), and
                                    whether the UI was blocked then *)
| ConsoleError (text : string)   (* debug.error( text ) *)
| Submitted (command : string) (silent userAction : bool)
                                 (* haven sendCommand( submit event, command ) *)
| KeySent (keyCode : option nat) (force : bool).
                                 (* haven keypress.send( { keyCode, force } ) *)

(** The three module-level arrays, and the state of the host that the
    module reads or writes. *)
Record State : Type := mkState {
  inputFilters : list InputFilter;
  commandQueue : list ParserCommand;
  keyQueue : list string;
  listeners : list (string * listener);   (* vorple.addEventListener *)
  lineinput_ready : bool;                 (* haven/prompt isReady() *)
  input_mode : string;                    (* haven/input getMode() *)
  ui_blocked : bool                       (* layout block / unblock *)
}.

Definition set_inputFilters (l : list InputFilter) (st : State) : State :=
  mkState l (commandQueue st) (keyQueue st) (listeners st)
          (lineinput_ready st) (input_mode st) (ui_blocked st).

Definition set_commandQueue (q : list ParserCommand) (st : State) : State :=
  mkState (inputFilters st) q (keyQueue st) (listeners st)
          (lineinput_ready st) (input_mode st) (ui_blocked st).

Definition set_keyQueue (q : list string) (st : State) : State :=
  mkState (inputFilters st) (commandQueue st) q (listeners st)
          (lineinput_ready st) (input_mode st) (ui_blocked st).

Definition set_listeners (l : list (string * listener)) (st : State) : State :=
  mkState (inputFilters st) (commandQueue st) (keyQueue st) l
          (lineinput_ready st) (input_mode st) (ui_blocked st).

Definition set_haven (ready : bool) (mode : string) (st : State) : State :=
  mkState (inputFilters st) (commandQueue st) (keyQueue st) (listeners st)
          ready mode (ui_blocked st).

Definition set_ui_blocked (b : bool) (st : State) : State :=
  mkState (inputFilters st) (commandQueue st) (keyQueue st) (listeners st)
          (lineinput_ready st) (input_mode st) b.

(** The state when the module is loaded: three empty arrays. *)
Definition loaded (ready : bool) (mode : string) : State :=
  mkState [] [] [] [] ready mode false.

(** ** Effects *)

(** A computation reads and updates the state, emits events, and ends
    with a [completion]. *)
Definition M (A : Type) : Type := State -> completion A * State * list event.

Definition ret {A} (a : A) : M A := fun st => (Normal a, st, []).

Definition bind {A B} (m : M A) (k : A -> M B) : M B :=
  fun st =>
    match m st with
    | (Normal a, st1, tr1) =>
        match k a st1 with
        | (c, st2, tr2) => (c, st2, tr1 ++ tr2)
        end
    | (Throw e, st1, tr1) => (Throw e, st1, tr1)
    | (Suspended, st1, tr1) => (Suspended, st1, tr1)
    end.

Declare Scope prompt_scope.
Delimit Scope prompt_scope with prompt.
Notation "x <- m ;; k" := (bind m (fun x => k))
  (at level 61, m at next level, right associativity) : prompt_scope.
Notation "m ;; k" := (bind m (fun _ => k))
  (at level 61, right associativity) : prompt_scope.
Local Open Scope prompt_scope.

(** [try { m } finally { fin }], for a [fin] that completes normally:
    [fin] runs when [m] returns and when [m] throws, and the completion of
    [m] stands.  A [m] that never resumes never reaches [fin]. *)
Definition try_finally {A} (m : M A) (fin : M unit) : M A :=
  fun st =>
    match m st with
    | (Suspended, st1, tr1) => (Suspended, st1, tr1)
    | (c, st1, tr1) =>
        match fin st1 with
        | (_, st2, tr2) => (c, st2, tr1 ++ tr2)
        end
    end.

Definition emit (e : event) : M unit := fun st => (Normal tt, st, [e]).
Definition get {A} (f : State -> A) : M A := fun st => (Normal (f st), st, []).
Definition modify (f : State -> State) : M unit := fun st => (Normal tt, f st, []).
Definition complete {A} (c : completion A) : M A := fun st => (c, st, []).

(** The three components of a run. *)
Definition outcome {A} (r : completion A * State * list event) : completion A :=
  fst (fst r).
Definition final {A} (r : completion A * State * list event) : State :=
  snd (fst r).
Definition emitted {A} (r : completion A * State * list event) : list event :=
  snd r.

(** ** The host: layout, debug, Haven and the event registry *)

Module Host.

(** Modelled from the spec: layout.block and layout.unblock are imported
    from ./layout, whose code is outside this module.  The spec says that
    UI input is disabled and re-enabled; the layout test (UI blocking)
    shows a plain switch: after [block] typing has no effect, after one
    [unblock] it has again. *)
Definition block : M unit :=
  modify (set_ui_blocked true) ;; emit Block.

Definition unblock : M unit :=
  modify (set_ui_blocked false) ;; emit Unblock.

(** Modelled from the spec: debug.error is imported from ./debug, whose
    code is outside this module.  The spec calls it a logging call; the
    test of the debug module (debugging, error) fixes what the call does:
    the message is printed to the error console (and on the screen), and
    then a JavaScript error is thrown, whether debugging is on or off. *)
Definition error (text : string) : M unit :=
  emit (ConsoleError text) ;; complete (Throw (JError text)).

(** Haven's [isReady()] and [getMode()] read the state of the engine. *)
Definition isReady : M bool := get lineinput_ready.
Definition getMode : M string := get input_mode.

(** Haven's [sendCommand( e, command )] with [e] a "submit" event of
    detail [{ silent, userAction }], and [keypress.send]. *)
Definition sendCommand (detail_silent detail_userAction : bool)
                       (command : string) : M unit :=
  emit (Submitted command detail_silent detail_userAction).

Definition keypress_send (keyCode : option nat) (force : bool) : M unit :=
  emit (KeySent keyCode force).

(** Modelled from the spec: addEventListener is imported from ./vorple,
    whose code is outside this module.  The spec says the module
    subscribes to named engine events and that the subscribed functions
    run when those events fire: a listener is stored under the name of
    its event. *)
Definition addEventListener (name : string) (l : listener) : M unit :=
  modify (fun st => set_listeners (listeners st ++ [(name, l)]) st).

End Host.
Import Host.

(** ** The module's functions *)

(** [submit( command, silent = false )] *)
Definition submit (command : string) (silent : value) : M unit :=
  sendCommand (toBoolean (defaulted silent (JBool false))) false command.

(** [runCommandQueue()]: returns [false] after submitting a command and
    [undefined] when the queue is empty.  The match is
    [commandQueue.length > 0] followed by [commandQueue.shift()]. *)
Definition runCommandQueue : M value :=
  q <- get commandQueue ;;
  match q with
  | command :: rest =>
      modify (set_commandQueue rest) ;;
      submit (cmd command) (JBool (silent command)) ;;
      ret (JBool false)
  | [] => ret JUndefined
  end.

(** [runKeyQueue()] *)
Definition runKeyQueue : M bool :=
  q <- get keyQueue ;;
  match q with
  | key :: rest =>
      modify (set_keyQueue rest) ;;
      keypress_send (charCodeAt0 key) true ;;
      ret false
  | [] => ret true
  end.

(** [inputFilters.indexOf( filter )]: the first index holding [filter], or
    [-1]. *)
Fixpoint indexOf_from (filter : InputFilter) (l : list InputFilter) (i : Z) : Z :=
  match l with
  | [] => (-1)%Z
  | x :: rest => if Nat.eqb x filter then i else indexOf_from filter rest (i + 1)%Z
  end.

Definition indexOf (filter : InputFilter) (l : list InputFilter) : Z :=
  indexOf_from filter l 0%Z.

(** [l.splice( index, 1 )] for an [index] that is not negative: the
    element at [index], if there is one, is taken out. *)
Definition splice1 {A} (index : Z) (l : list A) : list A :=
  firstn (Z.to_nat index) l ++ skipn (S (Z.to_nat index)) l.

(** [removeInputFilter( filter )] *)
Definition removeInputFilter (filter : InputFilter) : M bool :=
  l <- get inputFilters ;;
  let index := indexOf filter l in
  if (index =? -1)%Z then ret false
  else modify (set_inputFilters (splice1 index l)) ;; ret true.

(** [addInputFilter( filter )]: the result is the function
    [() => removeInputFilter( filter )]. *)
Definition addInputFilter (filter : InputFilter) : M (M bool) :=
  modify (fun st => set_inputFilters (inputFilters st ++ [filter]) st) ;;
  ret (removeInputFilter filter).

(** [clearCommandQueue()] and [clearKeyQueue()] *)
Definition clearCommandQueue : M unit := modify (set_commandQueue []).
Definition clearKeyQueue : M unit := modify (set_keyQueue []).

(** [init()] *)
Definition init : M unit :=
  addEventListener "expectCommand" RunCommandQueue ;;
  addEventListener "expectKeypress" RunKeyQueue.

(** [queueCommand( cmd, silent = false )] *)
Definition queueCommand (c : string) (silent : value) : M unit :=
  modify (fun st =>
    set_commandQueue
      (commandQueue st ++
         [mkParserCommand c (toBoolean (defaulted silent (JBool false)))]) st) ;;
  ready <- isReady ;;
  if ready then runCommandQueue ;; ret tt else ret tt.

(** [queueKeypress( key )] *)
Definition queueKeypress (key : string) : M unit :=
  modify (fun st => set_keyQueue (keyQueue st ++ [key]) st) ;;
  mode <- getMode ;;
  if mode =? "getkey" then runKeyQueue ;; ret tt else ret tt.

(** The engine fires the event [name]: the listeners stored under that
    name run, in the order they were added. *)
Definition run_listener (l : listener) : M unit :=
  match l with
  | RunCommandQueue => runCommandQueue ;; ret tt
  | RunKeyQueue => runKeyQueue ;; ret tt
  end.

Fixpoint run_listeners (ls : list (string * listener)) (name : string) : M unit :=
  match ls with
  | [] => ret tt
  | (n, l) :: rest =>
      (if n =? name then run_listener l else ret tt) ;;
      run_listeners rest name
  end.

Definition triggerEvent (name : string) : M unit :=
  ls <- get listeners ;; run_listeners ls name.

(** The event fired [n] times in a row. *)
Fixpoint triggerEvent_times (n : nat) (name : string) : M unit :=
  match n with
  | O => ret tt
  | S n' => triggerEvent name ;; triggerEvent_times n' name
  end.

(** ** applyInputFilters *)

(** The object literal
    [{ ...meta, input: finalInput, original: originalInput, type: "line" }]. *)
Definition filter_meta (originalInput : string) (meta : InputFilterMeta)
                       (finalInput : string) : InputFilterMeta :=
  mkInputFilterMeta finalInput originalInput Line
                    (userAction meta) (meta_silent meta).

(** The two messages handed to [error]. *)
Definition promise_message : string :=
  "Input filter promise resolved into another promise, which is not allowed".

Definition type_message (type : string) : string :=
  "Input filter returned a value of type " ++ type.

Section Filters.

(** What each registered function does when it is called with an input
    and a meta object.  The functions of this section return a result and
    do nothing else: they do not themselves touch the registry, the
    queues or the UI lock.  For such filters the array [inputFilters] is
    the same at every turn of the loop, and the loop over the array is a
    loop over the list read when the routine starts.  Module [Live] below
    has the loop as the source writes it, over the array as it is at each
    turn, for filters that also act on the module; lemma
    [live_without_effect] shows that the two agree for the filters of
    this section. *)
Variable body : InputFilter -> string -> InputFilterMeta -> completion returned.

(** [inputFilters[ i ]( finalInput, meta )] *)
Definition invoke (i : nat) (filter : InputFilter) (arg : string)
                  (meta : InputFilterMeta) : M returned :=
  blocked <- get ui_blocked ;;
  emit (Invoked i filter arg meta blocked) ;;
  complete (body filter arg meta).

(** [await Promise.resolve( filtered )] *)
Definition await (r : returned) : M value := complete (awaited r).

(** The body of the [for] loop, from index [i] on; [fs] holds
    [inputFilters[ i ]], [inputFilters[ i + 1 ]], ... up to the end of
    the array.  The statement after the loop is the [[]] case. *)
Fixpoint filterLoop (fs : list InputFilter) (i : nat)
         (originalInput : string) (meta : InputFilterMeta)
         (finalInput : string) {struct fs} : M value :=
  match fs with
  | [] =>
      unblock ;;
      ret (JString finalInput)
  | filter :: rest =>
      r <- invoke i filter finalInput
             (filter_meta originalInput meta finalInput) ;;
      filtered <- try_finally (await r) unblock ;;
      match filtered with
      | JUndefined | JNull | JBool true =>
          filterLoop rest (S i) originalInput meta finalInput
      | JBool false =>
          ret (JBool false)
      | _ =>
          let type := typeof filtered in
          (if (type =? "object") && then_in filtered
           then error promise_message else ret tt) ;;
          (* if( type === "string" ): the strings are the values whose
             typeof is "string" (lemma typeof_string below) *)
          match filtered with
          | JString s =>
              filterLoop rest (S i) originalInput meta s
          | _ =>
              error (type_message type) ;;
              filterLoop rest (S i) originalInput meta finalInput
          end
      end
  end.

(** [applyInputFilters( originalInput, meta )] *)
Definition applyInputFilters (originalInput : string) (meta : InputFilterMeta)
  : M value :=
  block ;;
  fs <- get inputFilters ;;
  filterLoop fs 0 originalInput meta originalInput.

End Filters.

(** ** Reading a run *)

(** The messages written to the error console, oldest first. *)
Definition console (tr : list event) : list string :=
  flat_map (fun e => match e with ConsoleError t => [t] | _ => [] end) tr.

(** The commands handed to the engine, oldest first. *)
Definition submitted_commands (tr : list event) : list ParserCommand :=
  flat_map (fun e => match e with
                     | Submitted c s _ => [mkParserCommand c s]
                     | _ => []
                     end) tr.

(** The key codes handed to the engine, oldest first. *)
Definition keys_sent (tr : list event) : list (option nat) :=
  flat_map (fun e => match e with KeySent k _ => [k] | _ => [] end) tr.

(** A run that comes after the events [pre]. *)
Definition after {A} (pre : list event) (r : completion A * State * list event)
  : completion A * State * list event :=
  (outcome r, final r, pre ++ emitted r).

(** ** The switch statement of applyInputFilters, in one table

    What the loop does with the value [v] that the await produced while
    the current input is [finalInput]: go on with an input, or stop with a
    completion after some texts were written to the error console.  Lemma
    [filterLoop_cons] shows that [filterLoop] follows this table. *)

Definition error_text (v : value) : string :=
  if (typeof v =? "object") && then_in v
  then promise_message
  else type_message (typeof v).

Inductive verdict : Type :=
| Pass (next : string)
| Stop (c : completion value) (texts : list string).

Definition judge (finalInput : string) (v : value) : verdict :=
  match v with
  | JUndefined | JNull | JBool true => Pass finalInput
  | JBool false => Stop (Normal (JBool false)) []
  | JString s => Pass s
  | _ => Stop (Throw (JError (error_text v))) [error_text v]
  end.

(** ** The sequential reading of applyInputFilters

    The description of the routine as a left-to-right pass over the
    registered filters, each one replacing the input or leaving it. *)

Section Sequential.

Variable body : InputFilter -> string -> InputFilterMeta -> completion returned.
Variables (originalInput : string) (meta : InputFilterMeta).

(** The input after [filter] has seen [finalInput]: the string it
    returned, or [finalInput] itself. *)
Definition replaced (finalInput : string) (filter : InputFilter) : string :=
  match resolved (body filter finalInput
                       (filter_meta originalInput meta finalInput)) with
  | Normal (JString s) => s
  | _ => finalInput
  end.

(** The events of a pass in which every filter lets the input through:
    filter [i] is called with the input that the filters before it
    produced, its result is awaited (the [Unblock] of the [finally]
    clause marks the end of the await), then filter [i + 1] is called;
    [blocked] is the state of the UI lock when filter [i] is called. *)
Fixpoint sequential_trace (fs : list InputFilter) (i : nat)
         (finalInput : string) (blocked : bool) : list event :=
  match fs with
  | [] => [Unblock]
  | filter :: rest =>
      Invoked i filter finalInput
              (filter_meta originalInput meta finalInput) blocked
      :: Unblock
      :: sequential_trace rest (S i) (replaced finalInput filter) false
  end.

End Sequential.

(** A filter lets the input through by returning [true] or a string,
    directly or through a promise. *)
Definition lets_through (c : completion value) : Prop :=
  c = Normal (JBool true) \/ exists s, c = Normal (JString s).

(** The values that the switch statement neither accepts nor takes as a
    cancellation. *)
Definition unacceptable (v : value) : bool :=
  match v with
  | JUndefined | JNull | JBool _ | JString _ => false
  | JNumber _ | JFunction | JObject _ | JError _ => true
  end.

(** ** Returning nothing instead of true *)

(** The promise that is fulfilled with [true] where [p] is fulfilled with
    [undefined] or [null]. *)
Fixpoint promise_as_true (p : promise) : promise :=
  match p with
  | Fulfilled JUndefined | Fulfilled JNull => Fulfilled (JBool true)
  | Adopts inner => Adopts (promise_as_true inner)
  | _ => p
  end.

(** The filter that returns [true] where [body] returns [undefined] or
    [null] (or a promise of either), and does what [body] does
    otherwise. *)
Definition as_true (c : completion returned) : completion returned :=
  match c with
  | Normal (Value JUndefined) | Normal (Value JNull) => Normal (Value (JBool true))
  | Normal (Promise p) => Normal (Promise (promise_as_true p))
  | _ => c
  end.

(** ** Sessions: the module driven by its callers and by the engine *)

Inductive action : Type :=
| QueueCommand (c : string) (silent : value)   (* queueCommand( c, silent ) *)
| QueueKeypress (key : string)                 (* queueKeypress( key ) *)
| Fire (name : string)                         (* the engine fires an event *)
| Engine (ready : bool) (mode : string).       (* the engine changes its state *)

Definition perform (a : action) : M unit :=
  match a with
  | QueueCommand c silent => queueCommand c silent
  | QueueKeypress key => queueKeypress key
  | Fire name => triggerEvent name
  | Engine ready mode => modify (set_haven ready mode)
  end.

Fixpoint perform_all (l : list action) : M unit :=
  match l with
  | [] => ret tt
  | a :: rest => perform a ;; perform_all rest
  end.

(** The commands and keys that a session queued, in the order of the
    calls. *)
Definition queued_commands (l : list action) : list ParserCommand :=
  flat_map (fun a => match a with
                     | QueueCommand c s =>
                         [mkParserCommand c (toBoolean (defaulted s (JBool false)))]
                     | _ => []
                     end) l.

Definition queued_keys (l : list action) : list string :=
  flat_map (fun a => match a with QueueKeypress k => [k] | _ => [] end) l.

(** A computation hands the queued commands and keys over in their
    order: it returns, and what it submitted followed by what is still
    queued is what was queued before followed by [cs] (commands) and [ks]
    (keys), the ones the computation queued itself. *)
Definition conserves {A} (cs : list ParserCommand) (ks : list string) (m : M A)
  : Prop :=
  forall st,
    let r := m st in
    (exists a, outcome r = Normal a) /\
    submitted_commands (emitted r) ++ commandQueue (final r)
      = commandQueue st ++ cs /\
    keys_sent (emitted r) ++ map charCodeAt0 (keyQueue (final r))
      = map charCodeAt0 (keyQueue st ++ ks).

(** ** Sample filters and states *)

Module Samples.

Definition filter_body : Type :=
  InputFilter -> string -> InputFilterMeta -> completion returned.

(** The meta object of a line typed by the player. *)
Definition typed : InputFilterMeta := mkInputFilterMeta "" "" Line true false.

(** The module with the filters [fs] registered and nothing queued. *)
Definition registered (fs : list InputFilter) : State :=
  set_inputFilters fs (loaded true "getline").

(** Every filter returns [true]. *)
Definition accept_all : filter_body :=
  fun _ _ _ => Normal (Value (JBool true)).

(** Every filter returns [undefined]. *)
Definition return_nothing : filter_body :=
  fun _ _ _ => Normal (Value JUndefined).

(** Filter 0 returns the number 42, the others return ["north"]. *)
Definition number_first : filter_body :=
  fun f _ _ =>
    match f with
    | 0 => Normal (Value (JNumber 42))
    | _ => Normal (Value (JString "north"))
    end.

(** Filter 0 returns a promise fulfilled with an object that has a
    [then] property, the others return ["north"]. *)
Definition then_object_first : filter_body :=
  fun f _ _ =>
    match f with
    | 0 => Normal (Promise (Fulfilled (JObject true)))
    | _ => Normal (Value (JString "north"))
    end.

(** Every filter returns a promise that was resolved with another
    promise, itself fulfilled with ["north"]. *)
Definition promise_of_promise : filter_body :=
  fun _ _ _ => Normal (Promise (Adopts (Fulfilled (JString "north")))).

(** Filter 0 appends [" north"] to the input, filter 1 returns a promise
    of [false], the others return [true]. *)
Definition rewrite_then_cancel : filter_body :=
  fun f s _ =>
    match f with
    | 0 => Normal (Value (JString (s ++ " north")))
    | 1 => Normal (Promise (Fulfilled (JBool false)))
    | _ => Normal (Value (JBool true))
    end.

(** Filter 0 appends [" north"] to the input, filter 1 returns [true],
    the others return a promise of the input followed by ["!"]. *)
Definition rewrite_twice : filter_body :=
  fun f s _ =>
    match f with
    | 0 => Normal (Value (JString (s ++ " north")))
    | 1 => Normal (Value (JBool true))
    | _ => Normal (Promise (Fulfilled (JString (s ++ "!"))))
    end.


(** The module after [init], with the commands [q] and the keys [keys]
    queued while the engine was busy. *)
Definition waiting (q : list ParserCommand) (keys : list string) : State :=
  set_keyQueue keys (set_commandQueue q (final (init (loaded false "getline")))).

End Samples.
Import Samples.

(** ** More ways to read a run *)

(** The events of the two queues: a command submitted as not being a user
    action, a key sent with [force]. *)
Definition queue_event (e : event) : Prop :=
  match e with
  | Submitted _ _ userAction => userAction = false
  | KeySent _ force => force = true
  | _ => False
  end.

(** The element of [queueCommand( c, silent )]. *)
Definition queued (c : string) (silent : value) : ParserCommand :=
  mkParserCommand c (toBoolean (defaulted silent (JBool false))).

(** The [submit] of a queued command, and the [keypress.send] of a
    queued key. *)
Definition submission (c : ParserCommand) : event :=
  Submitted (cmd c) (silent c) false.

Definition key_sending (key : string) : event :=
  KeySent (charCodeAt0 key) true.

(** A computation emits events of the two queues only. *)
Definition only_queue_events {A} (m : M A) : Prop :=
  forall st, Forall queue_event (emitted (m st)).

(** ** More sample filters *)

Module MoreSamples.

(** Filter 0 throws an error when it is called, the others return
    [true]. *)
Definition throws_first : filter_body :=
  fun f _ _ =>
    match f with
    | 0 => Throw (JError "boom")
    | _ => Normal (Value (JBool true))
    end.

(** Filter 0 returns a promise that is rejected, the others return
    [true]. *)
Definition rejects_first : filter_body :=
  fun f _ _ =>
    match f with
    | 0 => Normal (Promise (Rejected (JString "no")))
    | _ => Normal (Value (JBool true))
    end.

(** Filter 0 returns [true], the others a promise that never settles. *)
Definition hangs_second : filter_body :=
  fun f _ _ =>
    match f with
    | 0 => Normal (Value (JBool true))
    | _ => Normal (Promise Unsettled)
    end.

End MoreSamples.
Import MoreSamples.

(** ** applyInputFilters over the live registry

    A filter is a JavaScript function: besides returning a result, a call
    may act on the module, for instance by calling [addInputFilter], or
    the function that [addInputFilter] returned for it.  The loop of
    [applyInputFilters] reads [inputFilters.length] and
    [inputFilters[ i ]] anew at every turn, so it sees what the calls
    before have done to the registry.  A loop over an array that its own
    body may extend need not end: the loop takes a number of turns it is
    allowed to make, and gives [None] when they do not suffice. *)

Module Live.

(** What ends a turn of the loop: the next turn, with the input to go on
    with, or the [return] statement inside the switch. *)
Inductive step : Type :=
| Continue (finalInput : string)
| Return (v : value).

Section Filters.

(** The result of a call, as in section [Filters] above. *)
Variable body : InputFilter -> string -> InputFilterMeta -> completion returned.

(** What a call does to the module and its host before it returns,
    throws or hands back its promise. *)
Variable effect : InputFilter -> string -> InputFilterMeta -> State -> State.

(** [inputFilters[ i ]( finalInput, meta )] *)
Definition invoke (i : nat) (filter : InputFilter) (arg : string)
                  (meta : InputFilterMeta) : M returned :=
  blocked <- get ui_blocked ;;
  emit (Invoked i filter arg meta blocked) ;;
  modify (effect filter arg meta) ;;
  complete (body filter arg meta).

(** The body of the [for] loop at index [i], with [filter] the element
    [inputFilters[ i ]]. *)
Definition turn (i : nat) (filter : InputFilter) (originalInput : string)
           (meta : InputFilterMeta) (finalInput : string) : M step :=
  r <- invoke i filter finalInput
         (filter_meta originalInput meta finalInput) ;;
  filtered <- try_finally (await r) unblock ;;
  match filtered with
  | JUndefined | JNull | JBool true =>
      ret (Continue finalInput)
  | JBool false =>
      ret (Return (JBool false))
  | _ =>
      let type := typeof filtered in
      (if (type =? "object") && then_in filtered
       then error promise_message else ret tt) ;;
      match filtered with
      | JString s =>
          ret (Continue s)
      | _ =>
          error (type_message type) ;;
          ret (Continue finalInput)
      end
  end.

(** The [for] loop from index [i] on, in at most [fuel] turns.  The test
    [i < inputFilters.length] and the read of [inputFilters[ i ]] are the
    lookup of place [i] in the registry of the current state. *)
Fixpoint filterLoop (fuel : nat) (i : nat) (originalInput : string)
         (meta : InputFilterMeta) (finalInput : string) (st : State)
  : option (completion value * State * list event) :=
  match fuel with
  | O => None
  | S fuel' =>
      match nth_error (inputFilters st) i with
      | None =>
          Some ((unblock ;; ret (JString finalInput)) st)
      | Some filter =>
          match turn i filter originalInput meta finalInput st with
          | (Normal (Continue next), st1, tr1) =>
              option_map (after tr1)
                (filterLoop fuel' (S i) originalInput meta next st1)
          | (Normal (Return v), st1, tr1) => Some (Normal v, st1, tr1)
          | (Throw e, st1, tr1) => Some (Throw e, st1, tr1)
          | (Suspended, st1, tr1) => Some (Suspended, st1, tr1)
          end
      end
  end.

(** [applyInputFilters( originalInput, meta )] *)
Definition applyInputFilters (fuel : nat) (originalInput : string)
           (meta : InputFilterMeta) (st : State)
  : option (completion value * State * list event) :=
  match block st with
  | (_, st0, tr0) =>
      option_map (after tr0)
        (filterLoop fuel 0 originalInput meta originalInput st0)
  end.

End Filters.

End Live.

(** The filters of a list let the input through and leave the registry
    alone: each one, called on the input that the filters before it
    left, returns [true] or a string, and its call does not change the
    registry. *)
Fixpoint pass_quietly (body : filter_body)
         (effect : InputFilter -> string -> InputFilterMeta -> State -> State)
         (originalInput : string) (meta : InputFilterMeta)
         (fs : list InputFilter) (finalInput : string) : Prop :=
  match fs with
  | [] => True
  | f :: rest =>
      let m := filter_meta originalInput meta finalInput in
      lets_through (resolved (body f finalInput m)) /\
      (forall st, inputFilters (effect f finalInput m st) = inputFilters st) /\
      pass_quietly body effect originalInput meta rest
        (replaced body originalInput meta finalInput f)
  end.

(** ** Sample filters that act on the registry *)

Module LiveSamples.

(** Filter 1 returns ["b"], the others return [true]. *)
Definition second_rewrites : filter_body :=
  fun f _ _ =>
    match f with
    | 1 => Normal (Value (JString "b"))
    | _ => Normal (Value (JBool true))
    end.

(** A call of filter 0 calls [removeInputFilter] for filter 0, as the
    function that [addInputFilter] returned for it does; the calls of the
    other filters leave the module alone. *)
Definition first_removes_itself
  : InputFilter -> string -> InputFilterMeta -> State -> State :=
  fun f _ _ st =>
    match f with
    | 0 => final (removeInputFilter 0 st)
    | _ => st
    end.

(** No call does anything to the module. *)
Definition no_effect
  : InputFilter -> string -> InputFilterMeta -> State -> State :=
  fun _ _ _ st => st.

End LiveSamples.
Import LiveSamples.

(** * The registry of input filters *)

Section Registry.

Lemma indexOf_from_absent (f : InputFilter) (l : list InputFilter) (i : Z) :
  ~ In f l -> indexOf_from f l i = (-1)%Z.
Proof.
  revert i; induction l as [|x l IH]; intros i Hn; simpl; [reflexivity|].
  destruct (Nat.eqb_spec x f) as [->|_].
  - exfalso; apply Hn; now left.
  - apply IH; intro; apply Hn; now right.
Qed.

Lemma indexOf_from_first (f : InputFilter) (l1 l2 : list InputFilter) (i : Z) :
  ~ In f l1 ->
  indexOf_from f (l1 ++ f :: l2) i = (i + Z.of_nat (List.length l1))%Z.
Proof.
  revert i; induction l1 as [|x l1 IH]; intros i Hn; simpl.
  - rewrite Nat.eqb_refl; lia.
  - destruct (Nat.eqb_spec x f) as [->|_].
    + exfalso; apply Hn; now left.
    + rewrite IH by (intro; apply Hn; now right). lia.
Qed.

Lemma splice1_middle {A} (l1 l2 : list A) (x : A) :
  splice1 (Z.of_nat (List.length l1)) (l1 ++ x :: l2) = l1 ++ l2.
Proof.
  unfold splice1; rewrite Nat2Z.id.
  induction l1 as [|y l1 IH]; simpl; [reflexivity|].
  simpl in IH. now rewrite IH.
Qed.

Lemma set_inputFilters_same (st : State) :
  set_inputFilters (inputFilters st) st = st.
Proof. now destruct st. Qed.

Lemma set_inputFilters_twice (l l' : list InputFilter) (st : State) :
  set_inputFilters l (set_inputFilters l' st) = set_inputFilters l st.
Proof. reflexivity. Qed.

Lemma removeInputFilter_present (st : State) (f : InputFilter) l1 l2 :
  inputFilters st = l1 ++ f :: l2 -> ~ In f l1 ->
  removeInputFilter f st = (Normal true, set_inputFilters (l1 ++ l2) st, []).
Proof.
  intros Hl Hn. unfold removeInputFilter, bind, get, modify, ret, indexOf; simpl.
  rewrite Hl, indexOf_from_first by assumption.
  destruct (Z.eqb_spec (0 + Z.of_nat (List.length l1)) (-1)) as [E|_]; [lia|].
  simpl. now rewrite splice1_middle.
Qed.

Lemma removeInputFilter_absent (st : State) (f : InputFilter) :
  ~ In f (inputFilters st) ->
  removeInputFilter f st = (Normal false, st, []).
Proof.
  intros Hn. unfold removeInputFilter, bind, get, modify, ret, indexOf; simpl.
  now rewrite indexOf_from_absent.
Qed.

Lemma addInputFilter_run (st : State) (f : InputFilter) :
  addInputFilter f st =
  (Normal (removeInputFilter f), set_inputFilters (inputFilters st ++ [f]) st, []).
Proof. reflexivity. Qed.

End Registry.

Lemma first_occurrence (f : InputFilter) (l : list InputFilter) :
  In f l -> exists l1 l2, l = l1 ++ f :: l2 /\ ~ In f l1.
Proof.
  induction l as [|x l IH]; intros Hin; [destruct Hin|].
  destruct (Nat.eq_dec x f) as [->|Hx].
  - exists [], l. split; [reflexivity | intros []].
  - destruct Hin as [E|Hin]; [contradiction|].
    destruct (IH Hin) as [l1 [l2 [-> Hn]]].
    exists (x :: l1), l2. split; [reflexivity|].
    intros [E|Hin']; [contradiction | now apply Hn].
Qed.

(** C7: the registry admits duplicates.  In every state, the empty
    registry included, [addInputFilter] appends its argument at the end
    of the list, whether the filter is there already or not, and returns
    the function that removes it.  [removeInputFilter] of a filter that
    is present takes out its first occurrence only and answers [true]
    (a filter that is present has a first occurrence);
    [removeInputFilter] of a filter that is absent answers [false] and
    leaves the state as it was. *)
Theorem registry_duplicates_first_occurrence :
  forall (st : State) (f : InputFilter),
    addInputFilter f st =
      (Normal (removeInputFilter f),
       set_inputFilters (inputFilters st ++ [f]) st, []) /\
    (forall l1 l2,
        inputFilters st = l1 ++ f :: l2 -> ~ In f l1 ->
        removeInputFilter f st =
          (Normal true, set_inputFilters (l1 ++ l2) st, [])) /\
    (In f (inputFilters st) ->
     exists l1 l2, inputFilters st = l1 ++ f :: l2 /\ ~ In f l1) /\
    (~ In f (inputFilters st) ->
     removeInputFilter f st = (Normal false, st, [])).
Proof.
  intros st f. split; [apply addInputFilter_run|].
  split; [intros l1 l2; apply removeInputFilter_present|].
  split; [apply first_occurrence | apply removeInputFilter_absent].
Qed.

Lemma registry_duplicates_first_occurrence_witness :
  let st := set_inputFilters [4; 7; 4; 9] (loaded false "getline") in
  let empty := loaded false "getline" in
  inputFilters (final (addInputFilter 4 st)) = [4; 7; 4; 9; 4] /\
  removeInputFilter 4 st = (Normal true, set_inputFilters [7; 4; 9] st, []) /\
  removeInputFilter 5 st = (Normal false, st, []) /\
  inputFilters (final (addInputFilter 5 empty)) = [5] /\
  removeInputFilter 5 empty = (Normal false, empty, []).
Proof.
  intros st empty.
  destruct (registry_duplicates_first_occurrence st 4) as [Hadd [Hrem _]].
  destruct (registry_duplicates_first_occurrence st 5) as [_ [_ [_ Habs]]].
  destruct (registry_duplicates_first_occurrence empty 5)
    as [Hadd0 [_ [_ Habs0]]].
  split; [rewrite Hadd; reflexivity|].
  split; [apply (Hrem [] [7; 4; 9]); [reflexivity | intros []]|].
  split; [apply Habs; simpl; intros [H|[H|[H|[H|[]]]]]; discriminate|].
  split; [rewrite Hadd0; reflexivity|].
  apply Habs0. intros [].
Defined.

(** C9: for a filter that is not registered yet, the function returned by
    [addInputFilter] undoes the registration: it answers [true] and the
    state is back to what it was before [addInputFilter]. *)
Theorem addInputFilter_remover_roundtrip :
  forall (st : State) (f : InputFilter),
    ~ In f (inputFilters st) ->
    exists remover : M bool,
      outcome (addInputFilter f st) = Normal remover /\
      emitted (addInputFilter f st) = [] /\
      remover (final (addInputFilter f st)) = (Normal true, st, []).
Proof.
  intros st f Hn. exists (removeInputFilter f).
  rewrite addInputFilter_run; unfold outcome, final, emitted.
  cbn [fst snd]. repeat split.
  rewrite (removeInputFilter_present _ f (inputFilters st) []).
  - rewrite app_nil_r, set_inputFilters_twice, set_inputFilters_same. reflexivity.
  - reflexivity.
  - assumption.
Qed.

Lemma addInputFilter_remover_roundtrip_witness :
  let st := set_inputFilters [4; 7] (loaded false "getline") in
  exists remover : M bool,
    outcome (addInputFilter 5 st) = Normal remover /\
    emitted (addInputFilter 5 st) = [] /\
    remover (final (addInputFilter 5 st)) = (Normal true, st, []).
Proof.
  intro st. apply (addInputFilter_remover_roundtrip st 5).
  simpl; intros [H|[H|[]]]; discriminate.
Defined.

(** * The filter loop *)

Lemma typeof_string (v : value) :
  typeof v = "string" <-> exists s, v = JString s.
Proof.
  split.
  - destruct v; simpl; intro H; try discriminate. now exists s.
  - intros [s ->]. reflexivity.
Qed.

Section Loop.

Variable body : InputFilter -> string -> InputFilterMeta -> completion returned.
Variables (originalInput : string) (meta : InputFilterMeta).

Abbreviation loop := (filterLoop body).
Abbreviation meta_of := (filter_meta originalInput meta).

Lemma filterLoop_nil (i : nat) (finalInput : string) (st : State) :
  loop [] i originalInput meta finalInput st =
  (Normal (JString finalInput), set_ui_blocked false st, [Unblock]).
Proof. reflexivity. Qed.

(** One turn of the loop, by what the call and the await give. *)
Lemma filterLoop_cons (f : InputFilter) (rest : list InputFilter)
      (i : nat) (finalInput : string) (st : State) :
  loop (f :: rest) i originalInput meta finalInput st =
  let inv := Invoked i f finalInput (meta_of finalInput) (ui_blocked st) in
  match body f finalInput (meta_of finalInput) with
  | Throw e => (Throw e, st, [inv])
  | Suspended => (Suspended, st, [inv])
  | Normal r =>
      match awaited r with
      | Throw e => (Throw e, set_ui_blocked false st, [inv; Unblock])
      | Suspended => (Suspended, st, [inv])
      | Normal v =>
          match judge finalInput v with
          | Pass next =>
              after [inv; Unblock]
                (loop rest (S i) originalInput meta next (set_ui_blocked false st))
          | Stop c texts =>
              (c, set_ui_blocked false st,
               [inv; Unblock] ++ map ConsoleError texts)
          end
      end
  end.
Proof.
  simpl.
  unfold bind at 1. unfold invoke at 1, bind at 1, get, emit, complete; simpl.
  destruct (body f finalInput (meta_of finalInput)) as [r| |]; try reflexivity.
  unfold bind at 1, try_finally, await, complete, unblock, modify, emit; simpl.
  destruct (awaited r) as [v| |]; try reflexivity. simpl.
  destruct v as [| |[|]|n|s| |[|]|msg]; simpl;
    unfold after, outcome, final, emitted, bind, error, emit, complete, ret;
    simpl;
    try (destruct (loop rest (S i) originalInput meta _ _) as [[c s'] t]);
    reflexivity.
Qed.

(** The six ways a turn of the loop can go. *)
Ltac turn f fin :=
  rewrite filterLoop_cons in *; cbv zeta in *;
  destruct (body f fin (meta_of fin)) as [r|e|] eqn:Hbody;
  [ destruct (awaited r) as [v|e|] eqn:Hawait;
    [ destruct (judge fin v) as [next|c texts] eqn:Hjudge | | ]
  | | ];
  unfold after, outcome, final, emitted in *; cbn [fst snd app] in *.

Lemma not_in_console_texts i f s m b (texts : list string) :
  ~ In (Invoked i f s m b) (map ConsoleError texts).
Proof. intro H; apply in_map_iff in H; destruct H as [t [E _]]; discriminate. Qed.

(** The call numbers in a run of the loop from [i] on are at least [i]. *)
Lemma filterLoop_index_range (fs : list InputFilter) :
  forall i fin st k f s m b,
    In (Invoked k f s m b) (emitted (loop fs i originalInput meta fin st)) ->
    i <= k.
Proof.
  induction fs as [|f0 rest IH]; intros i fin st k f s m b H.
  - rewrite filterLoop_nil in H. destruct H as [H|[]]; discriminate.
  - turn f0 fin.
    + destruct H as [H|[H|H]]; [inversion H; lia | discriminate |].
      apply IH in H; lia.
    + destruct H as [H|[H|H]]; [inversion H; lia | discriminate |].
      now apply not_in_console_texts in H.
    + destruct H as [H|[H|[]]]; [inversion H; lia | discriminate].
    + destruct H as [H|[]]; inversion H; lia.
    + destruct H as [H|[]]; inversion H; lia.
    + destruct H as [H|[]]; inversion H; lia.
Qed.

(** Only the call numbered [i] can see the UI as the loop found it:
    every later call is made after an [unblock]. *)
Lemma filterLoop_snapshot (fs : list InputFilter) :
  forall i fin st k f s m b,
    In (Invoked k f s m b) (emitted (loop fs i originalInput meta fin st)) ->
    b = if (k =? i)%nat then ui_blocked st else false.
Proof.
  induction fs as [|f0 rest IH]; intros i fin st k f s m b H.
  - rewrite filterLoop_nil in H. destruct H as [H|[]]; discriminate.
  - assert (Hhead : Invoked i f0 fin (meta_of fin) (ui_blocked st)
                    = Invoked k f s m b ->
                    b = if (k =? i)%nat then ui_blocked st else false).
    { intro E; inversion E; subst. now rewrite Nat.eqb_refl. }
    turn f0 fin.
    + destruct H as [H|[H|H]]; [auto | discriminate |].
      pose proof (filterLoop_index_range _ _ _ _ _ _ _ _ _ H) as Hk.
      apply IH in H. simpl in H.
      destruct (Nat.eqb_spec k i) as [->|_]; [lia|].
      now destruct (k =? S i)%nat.
    + destruct H as [H|[H|H]]; [auto | discriminate |].
      now apply not_in_console_texts in H.
    + destruct H as [H|[H|[]]]; [auto | discriminate].
    + destruct H as [H|[]]; auto.
    + destruct H as [H|[]]; auto.
    + destruct H as [H|[]]; auto.
Qed.

(** A run of the loop leaves the UI lock open or as it found it; a run
    that returns leaves it open. *)
Lemma filterLoop_final (fs : list InputFilter) :
  forall i fin st,
    let r := loop fs i originalInput meta fin st in
    (final r = st \/ final r = set_ui_blocked false st) /\
    (forall v, outcome r = Normal v -> final r = set_ui_blocked false st).
Proof.
  induction fs as [|f0 rest IH]; intros i fin st; cbv zeta.
  - rewrite filterLoop_nil. split; [now right | reflexivity].
  - turn f0 fin; try (split; [auto | try discriminate; auto]; fail).
    destruct (IH (S i) next (set_ui_blocked false st)) as [[H|H] Hn];
      unfold outcome, final in *; split; try rewrite H; auto.
Qed.

Lemma console_app (t1 t2 : list event) :
  console (t1 ++ t2) = console t1 ++ console t2.
Proof. apply flat_map_app. Qed.

Lemma console_texts (texts : list string) :
  console (map ConsoleError texts) = texts.
Proof. induction texts as [|t l IH]; simpl; [|rewrite IH]; reflexivity. Qed.

(** The call whose awaited value stops the loop is the last call; the
    run ends the way the table says, with the UI lock open. *)
Lemma filterLoop_stops (fs : list InputFilter) :
  forall i fin st k f s m b w cw tw,
    In (Invoked k f s m b) (emitted (loop fs i originalInput meta fin st)) ->
    resolved (body f s m) = Normal w ->
    judge s w = Stop cw tw ->
    let r := loop fs i originalInput meta fin st in
    outcome r = cw /\
    console (emitted r) = tw /\
    final r = set_ui_blocked false st /\
    (forall j f' s' m' b', In (Invoked j f' s' m' b') (emitted r) -> j <= k).
Proof.
  induction fs as [|f0 rest IH];
    intros i fin st k f s m b w cw tw H Hres Hstop; cbv zeta.
  - rewrite filterLoop_nil in H. destruct H as [H|[]]; discriminate.
  - assert (Hhead : Invoked i f0 fin (meta_of fin) (ui_blocked st)
                    = Invoked k f s m b ->
                    resolved (body f0 fin (meta_of fin)) = Normal w /\
                    judge fin w = Stop cw tw /\ k = i).
    { intro E; inversion E; subst. auto. }
    turn f0 fin.
    + destruct H as [H|[H|H]]; [| discriminate |].
      * destruct (Hhead H) as [E [Hj _]]. simpl in E. congruence.
      * pose proof (filterLoop_index_range _ _ _ _ _ _ _ _ _ H) as Hk.
        destruct (IH _ _ _ _ _ _ _ _ _ _ _ H Hres Hstop) as [Ho [Hc [Hf Hl]]].
        unfold outcome, final, emitted in *.
        repeat split; auto.
        intros j f' s' m' b' [E|[E|Hin]];
          [inversion E; lia | discriminate | eauto].
    + destruct H as [H|[H|H]];
        [| discriminate | now apply not_in_console_texts in H].
      destruct (Hhead H) as [E [Hj ->]]. simpl in E.
      assert (w = v) by congruence; subst w.
      assert (Stop c texts = Stop cw tw) as E' by congruence.
      inversion E'; subst.
      repeat split; auto.
      * simpl. rewrite console_texts. reflexivity.
      * intros j f' s' m' b' [E1|[E1|Hin]];
          [inversion E1; lia | discriminate
          | now apply not_in_console_texts in Hin].
    + destruct H as [H|[H|[]]]; [| discriminate].
      destruct (Hhead H) as [E _]. simpl in E. congruence.
    + destruct H as [H|[]].
      destruct (Hhead H) as [E _]. simpl in E. congruence.
    + destruct H as [H|[]].
      destruct (Hhead H) as [E _]. discriminate.
    + destruct H as [H|[]].
      destruct (Hhead H) as [E _]. discriminate.
Qed.

End Loop.

Lemma settle_as_true (p : promise) :
  settle (promise_as_true p) =
  match settle p with
  | Normal JUndefined | Normal JNull => Normal (JBool true)
  | c => c
  end.
Proof.
  induction p as [v|inner IH|r|]; simpl; auto.
  destruct v; reflexivity.
Qed.

Lemma filterLoop_as_true (body : filter_body) (orig : string)
      (meta : InputFilterMeta) (fs : list InputFilter) :
  forall i fin st,
    filterLoop (fun f s m => as_true (body f s m)) fs i orig meta fin st =
    filterLoop body fs i orig meta fin st.
Proof.
  induction fs as [|f0 rest IH]; intros i fin st; [reflexivity|].
  rewrite !filterLoop_cons; cbv zeta.
  destruct (body f0 fin (filter_meta orig meta fin)) as [[v|p]|e|]; simpl;
    try reflexivity.
  - destruct v as [| |[|]| | | | |]; simpl; rewrite ?IH; reflexivity.
  - rewrite settle_as_true.
    destruct (settle p) as [v|e|]; [destruct v as [| |[|]| | | | |]|..];
      simpl; rewrite ?IH; reflexivity.
Qed.

Lemma applyInputFilters_run (body : filter_body) (orig : string)
      (meta : InputFilterMeta) (st : State) :
  applyInputFilters body orig meta st =
  after [Block]
    (filterLoop body (inputFilters st) 0 orig meta orig (set_ui_blocked true st)).
Proof.
  unfold applyInputFilters, block, bind, modify, emit, get, after,
    outcome, final, emitted; simpl.
  destruct (filterLoop body (inputFilters st) 0 orig meta orig _) as [[c s] t].
  reflexivity.
Qed.

Lemma in_after_block {A} i f s m b (r : completion A * State * list event) :
  In (Invoked i f s m b) (emitted (after [Block] r)) ->
  In (Invoked i f s m b) (emitted r).
Proof. intros [H|H]; [discriminate | exact H]. Qed.

(** * applyInputFilters and the UI lock *)

(** The first registered filter is called with the UI blocked; every
    other filter is called after the [unblock] of the [finally] clause of
    the turn before it, with the UI open. *)
Lemma applyInputFilters_lock_at_calls (body : filter_body) (orig : string)
      (meta : InputFilterMeta) (st : State) :
  forall k f s m b,
    In (Invoked k f s m b) (emitted (applyInputFilters body orig meta st)) ->
    b = (k =? 0)%nat.
Proof.
  intros k f s m b H. rewrite applyInputFilters_run in H.
  apply in_after_block, filterLoop_snapshot in H. simpl in H.
  now destruct (k =? 0)%nat.
Qed.

(** Whenever [applyInputFilters] returns, by the end of the loop or by
    the [return false] of a cancelling filter, the UI is open. *)
Lemma applyInputFilters_returns_unblocked (body : filter_body) (orig : string)
      (meta : InputFilterMeta) (st : State) (v : value) :
  outcome (applyInputFilters body orig meta st) = Normal v ->
  ui_blocked (final (applyInputFilters body orig meta st)) = false.
Proof.
  rewrite applyInputFilters_run. unfold after, outcome, final; cbn [fst snd].
  intro H.
  destruct (filterLoop_final body orig meta (inputFilters st) 0 orig
              (set_ui_blocked true st)) as [_ Hn].
  unfold outcome, final in Hn. now rewrite (Hn v H).
Qed.

(** C1: two registered filters that both return [true], and the line
    ["look"].  The UI is blocked when filter 0 is called and is opened as
    soon as its result has been awaited, so that filter 1 is called, and
    is pending, with the UI open; the routine then returns ["look"] with
    the UI open. *)
Theorem applyInputFilters_second_filter_unblocked :
  applyInputFilters accept_all "look" typed (registered [0; 1]) =
  (Normal (JString "look"),
   set_ui_blocked false (registered [0; 1]),
   [ Block;
     Invoked 0 0 "look" (filter_meta "look" typed "look") true;
     Unblock;
     Invoked 1 1 "look" (filter_meta "look" typed "look") false;
     Unblock;
     Unblock ]).
Proof. reflexivity. Qed.

(** * applyInputFilters: cancelling and rejected return values *)

(** C3: when a call of a filter gives [false], directly or through a
    promise, [applyInputFilters] returns [false], no filter registered
    after that one is called, and nothing is written to the error
    console. *)
Theorem applyInputFilters_false_cancels :
  forall (body : filter_body) (st : State) (orig : string)
         (meta : InputFilterMeta) k f s m b,
    let r := applyInputFilters body orig meta st in
    In (Invoked k f s m b) (emitted r) ->
    resolved (body f s m) = Normal (JBool false) ->
    outcome r = Normal (JBool false) /\
    (forall j f' s' m' b', In (Invoked j f' s' m' b') (emitted r) -> j <= k) /\
    console (emitted r) = [].
Proof.
  intros body st orig meta k f s m b r H Hres. subst r.
  rewrite applyInputFilters_run in *.
  apply in_after_block in H.
  destruct (filterLoop_stops body orig meta _ _ _ _ _ _ _ _ _ _ _ _
              H Hres eq_refl) as [Ho [Hc [_ Hl]]].
  unfold after, outcome, final, emitted in *; cbn [fst snd] in *.
  repeat split; auto.
  intros j f' s' m' b' [E|Hin]; [discriminate | eauto].
Qed.

Lemma applyInputFilters_false_cancels_witness :
  let r := applyInputFilters rewrite_then_cancel "go" typed (registered [0; 1; 2]) in
  outcome r = Normal (JBool false) /\
  (forall j f' s' m' b', In (Invoked j f' s' m' b') (emitted r) -> j <= 1) /\
  console (emitted r) = [].
Proof.
  apply (applyInputFilters_false_cancels rewrite_then_cancel (registered [0; 1; 2])
           "go" typed 1 1 "go north" (filter_meta "go" typed "go north") false).
  - simpl. auto 10.
  - reflexivity.
Defined.

(** C2, as the code has it: a filter whose awaited return value is not
    [undefined], [null], a boolean or a string is reported through
    [error], which writes the message to the error console and throws.
    The routine ends with that error, the message is the only one on the
    console, no filter registered after the offending one is called, and
    the UI is open. *)
Theorem applyInputFilters_unacceptable_value :
  forall (body : filter_body) (st : State) (orig : string)
         (meta : InputFilterMeta) k f s m b v,
    let r := applyInputFilters body orig meta st in
    In (Invoked k f s m b) (emitted r) ->
    resolved (body f s m) = Normal v ->
    unacceptable v = true ->
    outcome r = Throw (JError (error_text v)) /\
    console (emitted r) = [error_text v] /\
    (forall j f' s' m' b', In (Invoked j f' s' m' b') (emitted r) -> j <= k) /\
    ui_blocked (final r) = false.
Proof.
  intros body st orig meta k f s m b v r H Hres Hv. subst r.
  rewrite applyInputFilters_run in *.
  apply in_after_block in H.
  assert (Hj : judge s v = Stop (Throw (JError (error_text v))) [error_text v])
    by (destruct v; try discriminate; reflexivity).
  destruct (filterLoop_stops body orig meta _ _ _ _ _ _ _ _ _ _ _ _
              H Hres Hj) as [Ho [Hc [Hf Hl]]].
  unfold after, outcome, final, emitted in *; cbn [fst snd] in *.
  repeat split; auto.
  - intros j f' s' m' b' [E|Hin]; [discriminate | eauto].
  - now rewrite Hf.
Qed.

Lemma applyInputFilters_unacceptable_value_witness :
  let r := applyInputFilters number_first "go" typed (registered [0; 1]) in
  outcome r = Throw (JError "Input filter returned a value of type number") /\
  console (emitted r) = ["Input filter returned a value of type number"] /\
  (forall j f' s' m' b', In (Invoked j f' s' m' b') (emitted r) -> j <= 0) /\
  ui_blocked (final r) = false.
Proof.
  apply (applyInputFilters_unacceptable_value number_first (registered [0; 1])
           "go" typed 0 0 "go" (filter_meta "go" typed "go") true (JNumber 42)).
  - simpl. auto.
  - reflexivity.
  - reflexivity.
Defined.

(** C2, as stated, fails twice.  A filter that returns the number 42 is
    reported, but by an error that is thrown: the routine does not go on,
    and the filter registered after it is never called.  A filter that
    returns [undefined], which is neither a boolean nor a string, is not
    reported at all. *)
Lemma applyInputFilters_unacceptable_value_counterexample :
  (let r := applyInputFilters number_first "go" typed (registered [0; 1]) in
   outcome r = Throw (JError "Input filter returned a value of type number") /\
   forall s m b, ~ In (Invoked 1 1 s m b) (emitted r)) /\
  (let r := applyInputFilters return_nothing "go" typed (registered [0]) in
   typeof JUndefined <> "boolean" /\ typeof JUndefined <> "string" /\
   console (emitted r) = []).
Proof.
  split; cbv zeta.
  - split; [reflexivity|].
    intros s m b H. simpl in H.
    repeat (destruct H as [H|H]; [discriminate|]). exact H.
  - repeat split; discriminate.
Qed.

(** C8, as the code has it: when the value that the await of a filter's
    result gives is an object with a [then] property, the routine calls
    [error] with the message that a filter promise resolved into another
    promise; [error] writes it to the error console and throws, so the
    routine ends with that error and no filter registered after the
    offending one is called. *)
Theorem applyInputFilters_then_object :
  forall (body : filter_body) (st : State) (orig : string)
         (meta : InputFilterMeta) k f s m b v,
    let r := applyInputFilters body orig meta st in
    In (Invoked k f s m b) (emitted r) ->
    resolved (body f s m) = Normal v ->
    typeof v = "object" -> then_in v = true ->
    outcome r = Throw (JError promise_message) /\
    console (emitted r) = [promise_message] /\
    (forall j f' s' m' b', In (Invoked j f' s' m' b') (emitted r) -> j <= k).
Proof.
  intros body st orig meta k f s m b v r H Hres Hty Hthen. subst r.
  rewrite applyInputFilters_run in *.
  apply in_after_block in H.
  assert (Hj : judge s v = Stop (Throw (JError promise_message)) [promise_message])
    by (destruct v as [| | | | | |[|]|]; try discriminate; reflexivity).
  destruct (filterLoop_stops body orig meta _ _ _ _ _ _ _ _ _ _ _ _
              H Hres Hj) as [Ho [Hc [_ Hl]]].
  unfold after, outcome, final, emitted in *; cbn [fst snd] in *.
  repeat split; auto.
  intros j f' s' m' b' [E|Hin]; [discriminate | eauto].
Qed.

Lemma applyInputFilters_then_object_witness :
  let r := applyInputFilters then_object_first "go" typed (registered [0; 1]) in
  outcome r = Throw (JError promise_message) /\
  console (emitted r) = [promise_message] /\
  (forall j f' s' m' b', In (Invoked j f' s' m' b') (emitted r) -> j <= 0).
Proof.
  apply (applyInputFilters_then_object then_object_first (registered [0; 1])
           "go" typed 0 0 "go" (filter_meta "go" typed "go") true (JObject true)).
  - simpl. auto.
  - reflexivity.
  - reflexivity.
  - reflexivity.
Defined.

(** C8, as stated, fails twice.  A promise that was resolved with another
    promise is unwrapped by the await: the inner value, here ["north"],
    becomes the input and nothing is reported.  And where the routine does
    report (the awaited value is an object with a [then] property), the
    report is an error that is thrown. *)
Lemma applyInputFilters_then_object_counterexample :
  (let r := applyInputFilters promise_of_promise "go" typed (registered [0]) in
   outcome r = Normal (JString "north") /\ console (emitted r) = []) /\
  (let r := applyInputFilters then_object_first "go" typed (registered [0; 1]) in
   outcome r = Throw (JError promise_message)).
Proof. split; [split|]; reflexivity. Qed.

(** * The command queue and the key queue *)

Section Queues.

Lemma runCommandQueue_cons (c : ParserCommand) (q : list ParserCommand) (st : State) :
  runCommandQueue (set_commandQueue (c :: q) st) =
  (Normal (JBool false), set_commandQueue q st, [Submitted (cmd c) (silent c) false]).
Proof. reflexivity. Qed.

Lemma runCommandQueue_nil (st : State) :
  runCommandQueue (set_commandQueue [] st) =
  (Normal JUndefined, set_commandQueue [] st, []).
Proof. reflexivity. Qed.

Lemma runKeyQueue_cons (key : string) (q : list string) (st : State) :
  runKeyQueue (set_keyQueue (key :: q) st) =
  (Normal false, set_keyQueue q st, [KeySent (charCodeAt0 key) true]).
Proof. reflexivity. Qed.

Lemma runKeyQueue_nil (st : State) :
  runKeyQueue (set_keyQueue [] st) = (Normal true, set_keyQueue [] st, []).
Proof. reflexivity. Qed.

Lemma set_commandQueue_same (st : State) : set_commandQueue (commandQueue st) st = st.
Proof. now destruct st. Qed.

Lemma set_keyQueue_same (st : State) : set_keyQueue (keyQueue st) st = st.
Proof. now destruct st. Qed.

Lemma submitted_commands_app (t1 t2 : list event) :
  submitted_commands (t1 ++ t2) = submitted_commands t1 ++ submitted_commands t2.
Proof. apply flat_map_app. Qed.

Lemma keys_sent_app (t1 t2 : list event) :
  keys_sent (t1 ++ t2) = keys_sent t1 ++ keys_sent t2.
Proof. apply flat_map_app. Qed.

Lemma conserves_ret {A} (a : A) : conserves [] [] (ret a).
Proof.
  intro st; cbv zeta; simpl. rewrite !app_nil_r. repeat split. now exists a.
Qed.

Lemma conserves_bind {A B} cs1 ks1 cs2 ks2 (m : M A) (k : A -> M B) :
  conserves cs1 ks1 m -> (forall a, conserves cs2 ks2 (k a)) ->
  conserves (cs1 ++ cs2) (ks1 ++ ks2) (bind m k).
Proof.
  intros Hm Hk st; cbv zeta.
  destruct (Hm st) as [[a Ha] [Hc Hkeys]].
  unfold bind, outcome, final, emitted in *.
  destruct (m st) as [[c st1] tr1]; simpl in *; subst c.
  destruct (Hk a st1) as [[b Hb] [Hc' Hkeys']].
  unfold outcome, final, emitted in *.
  destruct (k a st1) as [[c st2] tr2]; simpl in *; subst c.
  split; [now exists b|].
  rewrite submitted_commands_app, keys_sent_app. split.
  - rewrite <- app_assoc, Hc', app_assoc, Hc. now rewrite <- app_assoc.
  - rewrite <- app_assoc, Hkeys', map_app, app_assoc, Hkeys.
    rewrite !map_app. now rewrite <- app_assoc.
Qed.

Lemma conserves_runCommandQueue : conserves [] [] runCommandQueue.
Proof.
  intros [fs [|[c sl] q] ks ls rd md ub]; cbv zeta; simpl; rewrite !app_nil_r;
    repeat split; now eexists.
Qed.

Lemma conserves_runKeyQueue : conserves [] [] runKeyQueue.
Proof.
  intros [fs q [|key ks] ls rd md ub]; cbv zeta; simpl; rewrite !app_nil_r;
    repeat split; now eexists.
Qed.

Lemma conserves_modify (f : State -> State) cs ks :
  (forall st, commandQueue (f st) = commandQueue st ++ cs) ->
  (forall st, keyQueue (f st) = keyQueue st ++ ks) ->
  conserves cs ks (modify f).
Proof.
  intros Hc Hk st; cbv zeta.
  unfold modify, outcome, final, emitted; cbn [fst snd].
  rewrite Hc, Hk. repeat split. now exists tt.
Qed.

Lemma conserves_get {A} (f : State -> A) : conserves [] [] (get f).
Proof.
  intro st; cbv zeta; simpl. rewrite !app_nil_r. repeat split. now eexists.
Qed.

Lemma conserves_queueCommand (c : string) (s : value) :
  conserves [mkParserCommand c (toBoolean (defaulted s (JBool false)))] []
            (queueCommand c s).
Proof.
  unfold queueCommand.
  apply (conserves_bind [_] [] [] []).
  - apply conserves_modify; intro st; simpl; now rewrite ?app_nil_r.
  - intros _. apply (conserves_bind [] [] [] []); [apply conserves_get|].
    intros [|]; [|apply conserves_ret].
    apply (conserves_bind [] [] [] []);
      [apply conserves_runCommandQueue | intro; apply conserves_ret].
Qed.

Lemma conserves_queueKeypress (key : string) :
  conserves [] [key] (queueKeypress key).
Proof.
  unfold queueKeypress.
  apply (conserves_bind [] [_] [] []).
  - apply conserves_modify; intro st; simpl; now rewrite ?app_nil_r.
  - intros _. apply (conserves_bind [] [] [] []); [apply conserves_get|].
    intros mode. destruct (mode =? "getkey"); [|apply conserves_ret].
    apply (conserves_bind [] [] [] []);
      [apply conserves_runKeyQueue | intro; apply conserves_ret].
Qed.

Lemma conserves_run_listeners (ls : list (string * listener)) (name : string) :
  conserves [] [] (run_listeners ls name).
Proof.
  induction ls as [|[n l] rest IH]; simpl; [apply conserves_ret|].
  apply (conserves_bind [] [] [] []); [|intro; exact IH].
  destruct (n =? name); [|apply conserves_ret].
  destruct l; simpl; apply (conserves_bind [] [] [] []);
    try (intro; apply conserves_ret);
    [apply conserves_runCommandQueue | apply conserves_runKeyQueue].
Qed.

Lemma conserves_triggerEvent (name : string) : conserves [] [] (triggerEvent name).
Proof.
  unfold triggerEvent.
  apply (conserves_bind [] [] [] []); [apply conserves_get|].
  intro ls; apply conserves_run_listeners.
Qed.

Lemma conserves_perform (a : action) :
  conserves (queued_commands [a]) (queued_keys [a]) (perform a).
Proof.
  destruct a as [c s|key|name|ready mode]; simpl.
  - apply conserves_queueCommand.
  - apply conserves_queueKeypress.
  - apply conserves_triggerEvent.
  - apply conserves_modify; intro st; simpl; now rewrite app_nil_r.
Qed.

Lemma conserves_perform_all (l : list action) :
  conserves (queued_commands l) (queued_keys l) (perform_all l).
Proof.
  induction l as [|a rest IH]; [apply conserves_ret|].
  replace (queued_commands (a :: rest))
    with (queued_commands [a] ++ queued_commands rest)
    by (unfold queued_commands; simpl; now rewrite app_nil_r).
  replace (queued_keys (a :: rest))
    with (queued_keys [a] ++ queued_keys rest)
    by (unfold queued_keys; simpl; now rewrite app_nil_r).
  simpl perform_all.
  apply conserves_bind; [apply conserves_perform | intro; exact IH].
Qed.

End Queues.

(** C6: both queues are first in, first out.  In any session of calls of
    [queueCommand] and [queueKeypress], events fired by the engine and
    changes of the engine's state, the commands submitted so far followed
    by the commands still queued are the commands that were queued, in
    the order of the calls of [queueCommand]; the same holds for the keys.
    In single steps: [queueCommand] and [queueKeypress] put their argument
    at the end of the queue (and leave it there while the engine does not
    wait for it), and [runCommandQueue] and [runKeyQueue] take the element
    at the front of the queue and hand that one to the engine. *)
Theorem queues_are_fifo :
  forall (acts : list action) (st : State),
    let r := perform_all acts st in
    outcome r = Normal tt /\
    submitted_commands (emitted r) ++ commandQueue (final r)
      = commandQueue st ++ queued_commands acts /\
    keys_sent (emitted r) ++ map charCodeAt0 (keyQueue (final r))
      = map charCodeAt0 (keyQueue st ++ queued_keys acts) /\
    (forall c s mode,
        queueCommand c s (set_haven false mode st) =
        (Normal tt,
         set_commandQueue
           (commandQueue st ++
              [mkParserCommand c (toBoolean (defaulted s (JBool false)))])
           (set_haven false mode st),
         [])) /\
    (forall key ready,
        queueKeypress key (set_haven ready "getline" st) =
        (Normal tt,
         set_keyQueue (keyQueue st ++ [key]) (set_haven ready "getline" st),
         [])) /\
    (forall c q,
        runCommandQueue (set_commandQueue (c :: q) st) =
        (Normal (JBool false), set_commandQueue q st,
         [Submitted (cmd c) (silent c) false])) /\
    (forall key q,
        runKeyQueue (set_keyQueue (key :: q) st) =
        (Normal false, set_keyQueue q st, [KeySent (charCodeAt0 key) true])).
Proof.
  intros acts st; cbv zeta.
  destruct (conserves_perform_all acts st) as [[[] Ho] [Hc Hk]].
  repeat split; auto.
Qed.

(** * The engine's events *)

Lemma triggerEvent_expectCommand (st0 : State) (c : ParserCommand)
      (rest : list ParserCommand) :
  let st := final (init (set_listeners [] st0)) in
  triggerEvent "expectCommand" (set_commandQueue (c :: rest) st) =
  (Normal tt, set_commandQueue rest st, [Submitted (cmd c) (silent c) false]).
Proof. reflexivity. Qed.

Lemma triggerEvent_expectKeypress (st0 : State) (key : string)
      (rest : list string) :
  let st := final (init (set_listeners [] st0)) in
  triggerEvent "expectKeypress" (set_keyQueue (key :: rest) st) =
  (Normal tt, set_keyQueue rest st, [KeySent (charCodeAt0 key) true]).
Proof. reflexivity. Qed.

(** C5, as the code has it: after [init], an "expectCommand" event takes
    the command at the front of the queue, submits it and leaves the
    others queued; as many events as there are queued commands submit
    them all, in the order of the queue, and leave the queue empty.  The
    same holds for "expectKeypress" events and the key queue. *)
Theorem expect_events_take_one_each :
  forall (st0 : State),
    let st := final (init (set_listeners [] st0)) in
    (forall c rest,
        triggerEvent "expectCommand" (set_commandQueue (c :: rest) st) =
        (Normal tt, set_commandQueue rest st,
         [Submitted (cmd c) (silent c) false])) /\
    (forall q,
        triggerEvent_times (List.length q) "expectCommand" (set_commandQueue q st) =
        (Normal tt, set_commandQueue [] st,
         map (fun c => Submitted (cmd c) (silent c) false) q)) /\
    (forall key rest,
        triggerEvent "expectKeypress" (set_keyQueue (key :: rest) st) =
        (Normal tt, set_keyQueue rest st, [KeySent (charCodeAt0 key) true])) /\
    (forall keys,
        triggerEvent_times (List.length keys) "expectKeypress" (set_keyQueue keys st) =
        (Normal tt, set_keyQueue [] st,
         map (fun k => KeySent (charCodeAt0 k) true) keys)).
Proof.
  intros st0 st. repeat split.
  - intros q. induction q as [|c rest IH]; [reflexivity|].
    change (triggerEvent_times (List.length (c :: rest)) "expectCommand")
      with (bind (triggerEvent "expectCommand")
                 (fun _ => triggerEvent_times (List.length rest) "expectCommand")).
    unfold bind at 1. subst st. rewrite triggerEvent_expectCommand; cbv zeta.
    rewrite IH. reflexivity.
  - intros keys. induction keys as [|key rest IH]; [reflexivity|].
    change (triggerEvent_times (List.length (key :: rest)) "expectKeypress")
      with (bind (triggerEvent "expectKeypress")
                 (fun _ => triggerEvent_times (List.length rest) "expectKeypress")).
    unfold bind at 1. subst st. rewrite triggerEvent_expectKeypress; cbv zeta.
    rewrite IH. reflexivity.
Qed.

(** C5, as stated, fails: with two commands queued, one "expectCommand"
    event submits the first of them only, and the second is still queued
    when the event has been handled.  The key queue behaves alike. *)
Lemma expect_event_drains_counterexample :
  (let r := triggerEvent "expectCommand"
              (waiting [mkParserCommand "north" false; mkParserCommand "south" true] []) in
   emitted r = [Submitted "north" false false] /\
   commandQueue (final r) = [mkParserCommand "south" true] /\
   commandQueue (final r) <> []) /\
  (let r := triggerEvent "expectKeypress" (waiting [] ["y"; "n"]) in
   emitted r = [KeySent (Some 121) true] /\
   keyQueue (final r) = ["n"] /\
   keyQueue (final r) <> []).
Proof. repeat split; discriminate. Qed.

(** * More on the filter loop: calls that do not come back *)

Section LoopEnds.

Variable body : InputFilter -> string -> InputFilterMeta -> completion returned.
Variables (originalInput : string) (meta : InputFilterMeta).

Abbreviation run_loop := (filterLoop body).
Abbreviation meta_at := (filter_meta originalInput meta).

Ltac one_turn f fin :=
  rewrite filterLoop_cons in *; cbv zeta in *;
  destruct (body f fin (meta_at fin)) as [r|e|] eqn:Hbody;
  [ destruct (awaited r) as [v|e|] eqn:Hawait;
    [ destruct (judge fin v) as [next|c texts] eqn:Hjudge | | ]
  | | ];
  unfold after, outcome, final, emitted in *; cbn [fst snd app] in *.

Lemma set_ui_blocked_same (st : State) : set_ui_blocked (ui_blocked st) st = st.
Proof. now destruct st. Qed.

(** The state of the UI lock after a call that does not produce a value:
    open after a rejected promise (the [finally] clause ran), as it was
    at the call otherwise. *)
Lemma filterLoop_abnormal (fs : list InputFilter) :
  forall i fin st k f s m b,
    In (Invoked k f s m b) (emitted (run_loop fs i originalInput meta fin st)) ->
    (forall w, resolved (body f s m) <> Normal w) ->
    let r := run_loop fs i originalInput meta fin st in
    outcome r = resolved (body f s m) /\
    console (emitted r) = [] /\
    (forall j f' s' m' b', In (Invoked j f' s' m' b') (emitted r) -> j <= k) /\
    final r =
      set_ui_blocked
        (match body f s m with
         | Normal p => match awaited p with Throw _ => false | _ => b end
         | _ => b
         end) st.
Proof.
  induction fs as [|f0 rest IH]; intros i fin st k f s m b H Hab; cbv zeta.
  - rewrite filterLoop_nil in H. destruct H as [H|[]]; discriminate.
  - assert (Hhead : Invoked i f0 fin (meta_at fin) (ui_blocked st)
                    = Invoked k f s m b ->
                    f0 = f /\ fin = s /\ meta_at fin = m /\
                    ui_blocked st = b /\ k = i).
    { intro E; inversion E; subst. auto. }
    one_turn f0 fin.
    + destruct H as [H|[H|H]]; [| discriminate |].
      * destruct (Hhead H) as (-> & -> & <- & _ & _).
        exfalso. apply (Hab v). now rewrite Hbody.
      * pose proof (filterLoop_index_range _ _ _ _ _ _ _ _ _ _ _ _ H) as Hk.
        destruct (IH _ _ _ _ _ _ _ _ H Hab) as [Ho [Hc [Hl Hf]]].
        unfold outcome, final, emitted in *.
        repeat split; auto.
        intros j f' s' m' b' [E|[E|Hin]];
          [inversion E; lia | discriminate | eauto].
    + destruct H as [H|[H|H]];
        [| discriminate | now apply not_in_console_texts in H].
      destruct (Hhead H) as (-> & -> & <- & _ & _).
      exfalso. apply (Hab v). now rewrite Hbody.
    + destruct H as [H|[H|[]]]; [| discriminate].
      destruct (Hhead H) as (-> & -> & <- & <- & ->).
      rewrite Hbody; simpl; rewrite Hawait.
      repeat split; auto.
      intros j f' s' m' b' [E|[E|[]]]; [inversion E; lia | discriminate].
    + destruct H as [H|[]].
      destruct (Hhead H) as (-> & -> & <- & <- & ->).
      rewrite Hbody; simpl; rewrite Hawait.
      repeat split; auto.
      * intros j f' s' m' b' [E|[]]; inversion E; lia.
      * now rewrite set_ui_blocked_same.
    + destruct H as [H|[]].
      destruct (Hhead H) as (-> & -> & <- & <- & ->).
      rewrite Hbody; simpl.
      repeat split; auto.
      * intros j f' s' m' b' [E|[]]; inversion E; lia.
      * now rewrite set_ui_blocked_same.
    + destruct H as [H|[]].
      destruct (Hhead H) as (-> & -> & <- & <- & ->).
      rewrite Hbody; simpl.
      repeat split; auto.
      * intros j f' s' m' b' [E|[]]; inversion E; lia.
      * now rewrite set_ui_blocked_same.
Qed.

(** Every call receives the meta object built from the input it is
    given; the call numbered [i] is given the input the loop starts
    with. *)
Lemma filterLoop_meta (fs : list InputFilter) :
  forall i fin st k f s m b,
    In (Invoked k f s m b) (emitted (run_loop fs i originalInput meta fin st)) ->
    m = meta_at s /\ (k = i -> s = fin).
Proof.
  induction fs as [|f0 rest IH]; intros i fin st k f s m b H.
  - rewrite filterLoop_nil in H. destruct H as [H|[]]; discriminate.
  - assert (Hhead : Invoked i f0 fin (meta_at fin) (ui_blocked st)
                    = Invoked k f s m b ->
                    m = meta_at s /\ (k = i -> s = fin)).
    { intro E; inversion E; subst. auto. }
    one_turn f0 fin.
    + destruct H as [H|[H|H]]; [auto | discriminate |].
      pose proof (filterLoop_index_range _ _ _ _ _ _ _ _ _ _ _ _ H) as Hk.
      destruct (IH _ _ _ _ _ _ _ _ H) as [Hm _]. split; [exact Hm | lia].
    + destruct H as [H|[H|H]]; [auto | discriminate |].
      now apply not_in_console_texts in H.
    + destruct H as [H|[H|[]]]; [auto | discriminate].
    + destruct H as [H|[]]; auto.
    + destruct H as [H|[]]; auto.
    + destruct H as [H|[]]; auto.
Qed.

Lemma judge_pass (fin : string) (v : value) (next : string) :
  judge fin v = Pass next -> next = fin \/ v = JString next.
Proof.
  destruct v as [| |[|]|n|s| |[|]|msg]; simpl; intro E; inversion E; auto.
Qed.

Lemma judge_stop (fin : string) (v : value) (c : completion value)
      (texts : list string) :
  judge fin v = Stop c texts ->
  (c = Normal (JBool false) /\ texts = []) \/
  (exists t, c = Throw (JError t) /\ texts = [t]).
Proof.
  destruct v as [| |[|]|n|s| |[|]|msg]; simpl; intro E; inversion E;
    auto; right; eexists; split; reflexivity.
Qed.

(** A run that returns has written nothing to the error console, and
    returns [false] or a string; the string is the input the loop started
    with or the awaited result of one of the calls made. *)
Lemma filterLoop_returns (fs : list InputFilter) :
  forall i fin st w,
    let r := run_loop fs i originalInput meta fin st in
    outcome r = Normal w ->
    console (emitted r) = [] /\
    (w = JBool false \/
     exists s, w = JString s /\
       (s = fin \/
        exists k f a m b,
          In (Invoked k f a m b) (emitted r) /\
          resolved (body f a m) = Normal (JString s))).
Proof.
  induction fs as [|f0 rest IH]; intros i fin st w; cbv zeta.
  - rewrite filterLoop_nil; simpl. intro E; inversion E; subst.
    split; [reflexivity|]. right. exists fin. auto.
  - one_turn f0 fin; intro Ho; try discriminate.
    + destruct (IH (S i) next (set_ui_blocked false st) w Ho) as [Hc Hw].
      unfold outcome, emitted in *. split; [exact Hc|].
      destruct Hw as [Hw|[s [Hs Hfrom]]]; [now left|].
      right. exists s. split; [exact Hs|].
      destruct Hfrom as [->|[k [f [a [m [b [Hin Hres]]]]]]].
      * destruct (judge_pass _ _ _ Hjudge) as [-> | ->]; [now left|].
        right. exists i, f0, fin, (meta_at fin), (ui_blocked st).
        split; [now left|]. now rewrite Hbody.
      * right. exists k, f, a, m, b. split; [now right; right | exact Hres].
    + destruct (judge_stop _ _ _ _ Hjudge) as [[-> ->]|[t [-> _]]];
        [|discriminate].
      inversion Ho; subst. split; [reflexivity | now left].
Qed.

(** At most one message is written to the error console, and a run that
    writes one ends by throwing an error with that message. *)
Lemma filterLoop_console (fs : list InputFilter) :
  forall i fin st,
    let r := run_loop fs i originalInput meta fin st in
    console (emitted r) = [] \/
    exists t, console (emitted r) = [t] /\ outcome r = Throw (JError t).
Proof.
  induction fs as [|f0 rest IH]; intros i fin st; cbv zeta.
  - now left.
  - one_turn f0 fin; try (now left).
    + apply (IH (S i) next (set_ui_blocked false st)).
    + simpl. rewrite console_texts.
      destruct (judge_stop _ _ _ _ Hjudge) as [[-> ->]|[t [-> ->]]];
        [now left | right; now exists t].
Qed.

End LoopEnds.

(** * applyInputFilters: calls that do not come back *)

Lemma applyInputFilters_abnormal (body : filter_body) (st : State)
      (orig : string) (meta : InputFilterMeta) k f s m b :
  let r := applyInputFilters body orig meta st in
  In (Invoked k f s m b) (emitted r) ->
  (forall w, resolved (body f s m) <> Normal w) ->
  outcome r = resolved (body f s m) /\
  console (emitted r) = [] /\
  (forall j f' s' m' b', In (Invoked j f' s' m' b') (emitted r) -> j <= k) /\
  ui_blocked (final r) =
    match body f s m with
    | Normal p => match awaited p with Throw _ => false | _ => (k =? 0)%nat end
    | _ => (k =? 0)%nat
    end.
Proof.
  intros r H Hab. subst r.
  pose proof (applyInputFilters_lock_at_calls _ _ _ _ _ _ _ _ _ H) as Hb.
  rewrite applyInputFilters_run in *.
  apply in_after_block in H.
  destruct (filterLoop_abnormal body orig meta _ _ _ _ _ _ _ _ _ H Hab)
    as [Ho [Hc [Hl Hf]]].
  unfold after, outcome, final, emitted in *; cbn [fst snd] in *.
  repeat split; auto.
  - intros j f' s' m' b' [E|Hin]; [discriminate | eauto].
  - rewrite Hf, <- Hb. reflexivity.
Qed.

(** X1: when a call of a filter throws, [applyInputFilters] ends with the
    thrown value, writes nothing to the error console and calls no filter
    registered after that one.  The call is made outside the [try]
    statement, so no [unblock] follows it: the UI is left blocked when
    the filter is the first of the registry, and open otherwise. *)
Theorem applyInputFilters_filter_throws :
  forall (body : filter_body) (st : State) (orig : string)
         (meta : InputFilterMeta) k f s m b e,
    let r := applyInputFilters body orig meta st in
    In (Invoked k f s m b) (emitted r) ->
    body f s m = Throw e ->
    outcome r = Throw e /\
    console (emitted r) = [] /\
    (forall j f' s' m' b', In (Invoked j f' s' m' b') (emitted r) -> j <= k) /\
    ui_blocked (final r) = (k =? 0)%nat.
Proof.
  intros body st orig meta k f s m b e r H Hbody.
  destruct (applyInputFilters_abnormal body st orig meta k f s m b H)
    as [Ho [Hc [Hl Hf]]].
  - intros w. rewrite Hbody. discriminate.
  - rewrite Hbody in *. auto.
Qed.

Lemma applyInputFilters_filter_throws_witness :
  let r := applyInputFilters throws_first "go" typed (registered [0; 1]) in
  outcome r = Throw (JError "boom") /\
  console (emitted r) = [] /\
  (forall j f' s' m' b', In (Invoked j f' s' m' b') (emitted r) -> j <= 0) /\
  ui_blocked (final r) = true.
Proof.
  apply (applyInputFilters_filter_throws throws_first (registered [0; 1])
           "go" typed 0 0 "go" (filter_meta "go" typed "go") true).
  - simpl. auto.
  - reflexivity.
Defined.

(** X2: when the promise returned by a filter is rejected,
    [applyInputFilters] ends with the reason of the rejection, after the
    [unblock] of the [finally] clause: the UI is open, nothing is written
    to the error console and no filter registered after that one is
    called. *)
Theorem applyInputFilters_promise_rejected :
  forall (body : filter_body) (st : State) (orig : string)
         (meta : InputFilterMeta) k f s m b p e,
    let r := applyInputFilters body orig meta st in
    In (Invoked k f s m b) (emitted r) ->
    body f s m = Normal p ->
    awaited p = Throw e ->
    outcome r = Throw e /\
    console (emitted r) = [] /\
    (forall j f' s' m' b', In (Invoked j f' s' m' b') (emitted r) -> j <= k) /\
    ui_blocked (final r) = false.
Proof.
  intros body st orig meta k f s m b p e r H Hbody Haw.
  destruct (applyInputFilters_abnormal body st orig meta k f s m b H)
    as [Ho [Hc [Hl Hf]]].
  - intros w. rewrite Hbody; simpl; rewrite Haw. discriminate.
  - rewrite Hbody in *; simpl in *; rewrite Haw in *. auto.
Qed.

Lemma applyInputFilters_promise_rejected_witness :
  let r := applyInputFilters rejects_first "go" typed (registered [0; 1]) in
  outcome r = Throw (JString "no") /\
  console (emitted r) = [] /\
  (forall j f' s' m' b', In (Invoked j f' s' m' b') (emitted r) -> j <= 0) /\
  ui_blocked (final r) = false.
Proof.
  apply (applyInputFilters_promise_rejected rejects_first (registered [0; 1])
           "go" typed 0 0 "go" (filter_meta "go" typed "go") true
           (Promise (Rejected (JString "no")))).
  - simpl. auto.
  - reflexivity.
  - reflexivity.
Defined.

(** X3: when a call of a filter never comes back, or returns a promise
    that never settles, [applyInputFilters] never finishes; no filter
    registered after that one is called, and the UI stays as it was at
    the call: blocked for the first filter of the registry, open for any
    other. *)
Theorem applyInputFilters_never_settles :
  forall (body : filter_body) (st : State) (orig : string)
         (meta : InputFilterMeta) k f s m b,
    let r := applyInputFilters body orig meta st in
    In (Invoked k f s m b) (emitted r) ->
    resolved (body f s m) = Suspended ->
    outcome r = Suspended /\
    (forall j f' s' m' b', In (Invoked j f' s' m' b') (emitted r) -> j <= k) /\
    ui_blocked (final r) = (k =? 0)%nat.
Proof.
  intros body st orig meta k f s m b r H Hres. subst r.
  destruct (applyInputFilters_abnormal body st orig meta k f s m b H)
    as [Ho [Hc [Hl Hf]]].
  - intros w. rewrite Hres. discriminate.
  - rewrite Hres in Ho. repeat split; auto.
    rewrite Hf. destruct (body f s m) as [p|e|]; simpl in Hres;
      [rewrite Hres | discriminate |]; reflexivity.
Qed.

Lemma applyInputFilters_never_settles_witness :
  let r := applyInputFilters hangs_second "go" typed (registered [0; 1; 2]) in
  outcome r = Suspended /\
  (forall j f' s' m' b', In (Invoked j f' s' m' b') (emitted r) -> j <= 1) /\
  ui_blocked (final r) = false.
Proof.
  apply (applyInputFilters_never_settles hangs_second (registered [0; 1; 2])
           "go" typed 1 1 "go" (filter_meta "go" typed "go") false).
  - simpl. auto 10.
  - reflexivity.
Defined.

(** * applyInputFilters: what every run keeps *)

(** X4: in every call of a filter, whatever the other filters do, the
    meta object carries the input given to that call as [input], the
    input [applyInputFilters] was called with as [original], the type
    ["line"], and the [userAction] and [silent] fields of the caller's
    meta object; the first filter of the registry is given the original
    input. *)
Theorem applyInputFilters_meta_of_calls :
  forall (body : filter_body) (st : State) (orig : string)
         (meta : InputFilterMeta) k f s m b,
    let r := applyInputFilters body orig meta st in
    In (Invoked k f s m b) (emitted r) ->
    input m = s /\ original m = orig /\ type m = Line /\
    userAction m = userAction meta /\ meta_silent m = meta_silent meta /\
    (k = 0 -> s = orig).
Proof.
  intros body st orig meta k f s m b r H. subst r.
  rewrite applyInputFilters_run in H. apply in_after_block in H.
  destruct (filterLoop_meta body orig meta _ _ _ _ _ _ _ _ _ H) as [-> Hk].
  repeat split; auto.
Qed.

Lemma applyInputFilters_meta_of_calls_witness :
  let m := filter_meta "go" typed "go north" in
  input m = "go north" /\ original m = "go" /\ type m = Line /\
  userAction m = userAction typed /\ meta_silent m = meta_silent typed /\
  (2 = 0 -> "go north" = "go").
Proof.
  apply (applyInputFilters_meta_of_calls rewrite_twice (registered [0; 1; 2])
           "go" typed 2 2 "go north" (filter_meta "go" typed "go north") false).
  simpl. auto 10.
Defined.

(** X6: whenever [applyInputFilters] returns, it returns [false] or a
    string, nothing was written to the error console and the UI is open;
    a returned string is the original input or the awaited result of one
    of the calls made in that run. *)
Theorem applyInputFilters_returns_false_or_string :
  forall (body : filter_body) (st : State) (orig : string)
         (meta : InputFilterMeta) (w : value),
    let r := applyInputFilters body orig meta st in
    outcome r = Normal w ->
    console (emitted r) = [] /\
    ui_blocked (final r) = false /\
    (w = JBool false \/
     exists s, w = JString s /\
       (s = orig \/
        exists k f a m b,
          In (Invoked k f a m b) (emitted r) /\
          resolved (body f a m) = Normal (JString s))).
Proof.
  intros body st orig meta w r Ho. subst r.
  pose proof (applyInputFilters_returns_unblocked _ _ _ _ _ Ho) as Hu.
  rewrite applyInputFilters_run in *.
  unfold after, outcome, final, emitted in *; cbn [fst snd] in *.
  destruct (filterLoop_returns body orig meta (inputFilters st) 0 orig
              (set_ui_blocked true st) w Ho) as [Hc Hw].
  unfold emitted in *.
  repeat split; auto.
  destruct Hw as [Hw|[s [Hs [Hs'|[k [f [a [m [b [Hin Hres]]]]]]]]]]; auto.
  - right. exists s. auto.
  - right. exists s. split; [exact Hs|]. right.
    exists k, f, a, m, b. split; [now right | exact Hres].
Qed.

Lemma applyInputFilters_returns_false_or_string_witness :
  let r := applyInputFilters rewrite_twice "go" typed (registered [0; 1; 2]) in
  console (emitted r) = [] /\
  ui_blocked (final r) = false /\
  (JString "go north!" = JBool false \/
   exists s, JString "go north!" = JString s /\
     (s = "go" \/
      exists k f a m b,
        In (Invoked k f a m b) (emitted r) /\
        resolved (rewrite_twice f a m) = Normal (JString s))).
Proof.
  apply (applyInputFilters_returns_false_or_string rewrite_twice
           (registered [0; 1; 2]) "go" typed (JString "go north!")).
  reflexivity.
Defined.

(** X7: a run of [applyInputFilters] writes at most one message to the
    error console, and a run that writes one ends by throwing an error
    with that message. *)
Theorem applyInputFilters_one_error_at_most :
  forall (body : filter_body) (st : State) (orig : string) (meta : InputFilterMeta),
    let r := applyInputFilters body orig meta st in
    console (emitted r) = [] \/
    exists t, console (emitted r) = [t] /\ outcome r = Throw (JError t).
Proof.
  intros body st orig meta r. subst r.
  rewrite applyInputFilters_run.
  destruct (filterLoop_console body orig meta (inputFilters st) 0 orig
              (set_ui_blocked true st)) as [Hc|[t [Hc Ho]]];
    unfold after, outcome, final, emitted in *; cbn [fst snd] in *.
  - now left.
  - right. now exists t.
Qed.

(** * More on the registry *)



(** X10: the function returned by [addInputFilter] can be called again
    without harm: for a filter that was not registered before, the first
    call removes the registration and answers [true], the second call
    answers [false] and changes nothing. *)
Theorem addInputFilter_remover_twice :
  forall (st : State) (f : InputFilter),
    ~ In f (inputFilters st) ->
    exists remover : M bool,
      outcome (addInputFilter f st) = Normal remover /\
      (bind remover (fun first => bind remover (fun second => ret (first, second))))
        (final (addInputFilter f st))
      = (Normal (true, false), st, []).
Proof.
  intros st f Hn. exists (removeInputFilter f).
  rewrite addInputFilter_run; unfold outcome, final; cbn [fst snd].
  split; [reflexivity|].
  unfold bind at 1.
  rewrite (removeInputFilter_present _ f (inputFilters st) []);
    [| reflexivity | assumption].
  rewrite app_nil_r, set_inputFilters_twice, set_inputFilters_same.
  unfold bind. rewrite (removeInputFilter_absent st f Hn). reflexivity.
Qed.

Lemma addInputFilter_remover_twice_witness :
  let st := set_inputFilters [4; 7] (loaded false "getline") in
  exists remover : M bool,
    outcome (addInputFilter 5 st) = Normal remover /\
    (bind remover (fun first => bind remover (fun second => ret (first, second))))
      (final (addInputFilter 5 st))
    = (Normal (true, false), st, []).
Proof.
  intro st. apply (addInputFilter_remover_twice st 5).
  simpl; intros [H|[H|[]]]; discriminate.
Defined.

(** * More on the queues *)

(** X11: when the line input is ready, [queueCommand] submits at once,
    and what it submits is the command at the front of the queue after
    the push: the new command when the queue was empty, the oldest queued
    command otherwise, with the new one left at the end of the queue. *)
Theorem queueCommand_when_ready :
  forall (st : State) (c : string) (s : value),
    lineinput_ready st = true ->
    queueCommand c s st =
    (Normal tt,
     set_commandQueue (tl (commandQueue st ++ [queued c s])) st,
     [submission (hd (queued c s) (commandQueue st ++ [queued c s]))]).
Proof.
  intros [fs q ks ls rd md ub] c s Hr; simpl in Hr; subst rd.
  destruct q as [|c0 q]; reflexivity.
Qed.

Lemma queueCommand_when_ready_witness :
  let st := set_commandQueue [mkParserCommand "north" true] (loaded true "getline") in
  queueCommand "south" JUndefined st =
  (Normal tt, set_commandQueue [mkParserCommand "south" false] st,
   [Submitted "north" true false]).
Proof.
  intro st. apply (queueCommand_when_ready st "south" JUndefined). reflexivity.
Defined.

(** X12: [queueKeypress] sends a key at once only when the engine is in
    the mode ["getkey"]; it then sends the key at the front of the queue
    after the push, the oldest one.  In any other mode the key is only
    queued. *)
Theorem queueKeypress_by_mode :
  forall (st : State) (key : string),
    (input_mode st = "getkey" ->
     queueKeypress key st =
     (Normal tt,
      set_keyQueue (tl (keyQueue st ++ [key])) st,
      [key_sending (hd key (keyQueue st ++ [key]))])) /\
    (input_mode st <> "getkey" ->
     queueKeypress key st =
     (Normal tt, set_keyQueue (keyQueue st ++ [key]) st, [])).
Proof.
  intros [fs q ks ls rd md ub] key; simpl. split; intro Hm.
  - subst md. destruct ks as [|k0 ks]; reflexivity.
  - unfold queueKeypress, bind, modify, getMode, get; simpl.
    destruct (String.eqb_spec md "getkey") as [E|_]; [contradiction|].
    reflexivity.
Qed.

Lemma queueKeypress_by_mode_witness :
  queueKeypress "n" (set_keyQueue ["y"] (loaded false "getkey")) =
  (Normal tt, set_keyQueue ["n"] (loaded false "getkey"), [KeySent (Some 121) true]) /\
  queueKeypress "n" (set_keyQueue ["y"] (loaded false "getline")) =
  (Normal tt, set_keyQueue ["y"; "n"] (loaded false "getline"), []).
Proof.
  split.
  - apply (queueKeypress_by_mode (set_keyQueue ["y"] (loaded false "getkey")) "n").
    reflexivity.
  - apply (queueKeypress_by_mode (set_keyQueue ["y"] (loaded false "getline")) "n").
    discriminate.
Defined.

(** X13: after [init], any number [n] of "expectCommand" events submits
    the first [n] queued commands in their order, or all of them when
    fewer are queued, and leaves the others queued; events that find the
    queue empty do nothing.  The same holds for "expectKeypress" events
    and the key queue. *)
Theorem expect_events_take_a_prefix :
  forall (st0 : State) (n : nat),
    let st := final (init (set_listeners [] st0)) in
    (forall q,
        triggerEvent_times n "expectCommand" (set_commandQueue q st) =
        (Normal tt, set_commandQueue (skipn n q) st, map submission (firstn n q))) /\
    (forall keys,
        triggerEvent_times n "expectKeypress" (set_keyQueue keys st) =
        (Normal tt, set_keyQueue (skipn n keys) st, map key_sending (firstn n keys))).
Proof.
  intros st0 n st. split.
  - induction n as [|n IH]; intros q; [reflexivity|].
    change (triggerEvent_times (S n) "expectCommand")
      with (bind (triggerEvent "expectCommand")
                 (fun _ => triggerEvent_times n "expectCommand")).
    unfold bind at 1. destruct q as [|c rest].
    + change (triggerEvent "expectCommand" (set_commandQueue [] st))
        with (Normal tt, set_commandQueue [] st, @nil event).
      cbv beta iota. rewrite IH. now destruct n.
    + subst st. rewrite triggerEvent_expectCommand; cbv zeta.
      rewrite IH. reflexivity.
  - induction n as [|n IH]; intros keys; [reflexivity|].
    change (triggerEvent_times (S n) "expectKeypress")
      with (bind (triggerEvent "expectKeypress")
                 (fun _ => triggerEvent_times n "expectKeypress")).
    unfold bind at 1. destruct keys as [|key rest].
    + change (triggerEvent "expectKeypress" (set_keyQueue [] st))
        with (Normal tt, set_keyQueue [] st, @nil event).
      cbv beta iota. rewrite IH. now destruct n.
    + subst st. rewrite triggerEvent_expectKeypress; cbv zeta.
      rewrite IH. reflexivity.
Qed.

Lemma triggerEvent_after_init (st0 : State) (q : list ParserCommand)
      (keys : list string) (name : string) :
  let st := set_keyQueue keys
              (set_commandQueue q (final (init (set_listeners [] st0)))) in
  triggerEvent name st =
  ((if "expectCommand" =? name then run_listener RunCommandQueue else ret tt) ;;
   (if "expectKeypress" =? name then run_listener RunKeyQueue else ret tt) ;;
   ret tt) st.
Proof.
  cbv zeta. unfold triggerEvent, bind at 1, get.
  change (listeners (set_keyQueue keys
            (set_commandQueue q (final (init (set_listeners [] st0))))))
    with [("expectCommand", RunCommandQueue); ("expectKeypress", RunKeyQueue)].
  cbn [run_listeners].
  match goal with
  | |- context [ let (p, tr2) := ?m ?st in _ ] =>
      destruct (m st) as [[c st2] tr2]
  end.
  reflexivity.
Qed.

(** X14: after [init], each event keeps to its own queue: an event other
    than "expectCommand" submits no command and leaves the command queue
    as it is, an event other than "expectKeypress" sends no key and
    leaves the key queue as it is, and an event of any other name does
    nothing at all. *)
Theorem expect_events_keep_to_their_queue :
  forall (st0 : State) (q : list ParserCommand) (keys : list string)
         (name : string),
    let st := set_keyQueue keys
                (set_commandQueue q (final (init (set_listeners [] st0)))) in
    let r := triggerEvent name st in
    (name <> "expectCommand" ->
     submitted_commands (emitted r) = [] /\ commandQueue (final r) = q) /\
    (name <> "expectKeypress" ->
     keys_sent (emitted r) = [] /\ keyQueue (final r) = keys) /\
    (name <> "expectCommand" -> name <> "expectKeypress" ->
     r = (Normal tt, st, [])).
Proof.
  intros st0 q keys name st r. subst r st.
  rewrite triggerEvent_after_init.
  destruct (String.eqb_spec "expectCommand" name) as [<-|Hc];
    [rewrite (proj2 (String.eqb_neq "expectKeypress" "expectCommand"))
       by discriminate
    | destruct (String.eqb_spec "expectKeypress" name) as [<-|Hk] ].
  - split; [intro H | split; [intro H | intros H1 H2]]; try congruence.
    destruct q; split; reflexivity.
  - split; [intro H | split; [intro H | intros H1 H2]]; try congruence.
    destruct keys; split; reflexivity.
  - repeat split; reflexivity.
Qed.

Lemma expect_events_keep_to_their_queue_witness :
  let st := set_keyQueue ["y"]
              (set_commandQueue [mkParserCommand "north" false]
                 (final (init (set_listeners [] (loaded false "getline"))))) in
  (submitted_commands (emitted (triggerEvent "expectKeypress" st)) = [] /\
   commandQueue (final (triggerEvent "expectKeypress" st))
   = [mkParserCommand "north" false]) /\
  (keys_sent (emitted (triggerEvent "expectCommand" st)) = [] /\
   keyQueue (final (triggerEvent "expectCommand" st)) = ["y"]) /\
  triggerEvent "quit" st = (Normal tt, st, []).
Proof.
  intro st.
  destruct (expect_events_keep_to_their_queue (loaded false "getline")
              [mkParserCommand "north" false] ["y"] "expectKeypress")
    as [Hcommands _].
  destruct (expect_events_keep_to_their_queue (loaded false "getline")
              [mkParserCommand "north" false] ["y"] "expectCommand")
    as [_ [Hkeys _]].
  destruct (expect_events_keep_to_their_queue (loaded false "getline")
              [mkParserCommand "north" false] ["y"] "quit")
    as [_ [_ Hother]].
  split; [apply Hcommands; discriminate|].
  split; [apply Hkeys; discriminate|].
  apply Hother; discriminate.
Defined.

Section QueueEvents.

Lemma only_ret {A} (a : A) : only_queue_events (ret a).
Proof. intro st. constructor. Qed.

Lemma only_bind {A B} (m : M A) (k : A -> M B) :
  only_queue_events m -> (forall a, only_queue_events (k a)) ->
  only_queue_events (bind m k).
Proof.
  intros Hm Hk st. specialize (Hm st). unfold bind, emitted in *.
  destruct (m st) as [[[a|e|] st1] tr1]; simpl in *; auto.
  specialize (Hk a st1). unfold emitted in Hk.
  destruct (k a st1) as [[c st2] tr2]; simpl in *.
  apply Forall_app; auto.
Qed.

Lemma only_get {A} (f : State -> A) : only_queue_events (get f).
Proof. intro st. constructor. Qed.

Lemma only_modify (f : State -> State) : only_queue_events (modify f).
Proof. intro st. constructor. Qed.

Lemma only_runCommandQueue : only_queue_events runCommandQueue.
Proof.
  intros [fs [|c q] ks ls rd md ub]; simpl; repeat constructor.
Qed.

Lemma only_runKeyQueue : only_queue_events runKeyQueue.
Proof.
  intros [fs q [|key ks] ls rd md ub]; simpl; repeat constructor.
Qed.

Lemma only_run_listeners (ls : list (string * listener)) (name : string) :
  only_queue_events (run_listeners ls name).
Proof.
  induction ls as [|[n l] rest IH]; simpl; [apply only_ret|].
  apply only_bind; [|intro; exact IH].
  destruct (n =? name); [|apply only_ret].
  destruct l; simpl; apply only_bind;
    try (intro; apply only_ret);
    [apply only_runCommandQueue | apply only_runKeyQueue].
Qed.

Lemma only_perform (a : action) : only_queue_events (perform a).
Proof.
  destruct a as [c s|key|name|ready mode]; simpl.
  - unfold queueCommand. apply only_bind; [apply only_modify|].
    intros _. apply only_bind; [apply only_get|].
    intros [|]; [|apply only_ret].
    apply only_bind; [apply only_runCommandQueue | intro; apply only_ret].
  - unfold queueKeypress. apply only_bind; [apply only_modify|].
    intros _. apply only_bind; [apply only_get|].
    intros mode. destruct (mode =? "getkey"); [|apply only_ret].
    apply only_bind; [apply only_runKeyQueue | intro; apply only_ret].
  - unfold triggerEvent. apply only_bind; [apply only_get|].
    intro ls; apply only_run_listeners.
  - apply only_modify.
Qed.

End QueueEvents.

(** X15: whatever is queued and whichever events fire, every command
    that the queue functions hand to the engine is marked as not being a
    user action, every key is sent with [force], and nothing else is done
    to the host: in particular the UI is never blocked. *)
Theorem sessions_emit_queue_events :
  forall (acts : list action) (st : State) (e : event),
    In e (emitted (perform_all acts st)) ->
    match e with
    | Submitted _ _ userAction => userAction = false
    | KeySent _ force => force = true
    | _ => False
    end.
Proof.
  intros acts st e Hin.
  assert (H : only_queue_events (perform_all acts)).
  { clear Hin. induction acts as [|a rest IH]; simpl; [apply only_ret|].
    apply only_bind; [apply only_perform | intro; exact IH]. }
  specialize (H st). rewrite Forall_forall in H. exact (H e Hin).
Qed.

Lemma sessions_emit_queue_events_witness :
  match Submitted "north" true false with
  | Submitted _ _ userAction => userAction = false
  | KeySent _ force => force = true
  | _ => False
  end.
Proof.
  apply (sessions_emit_queue_events
           [QueueCommand "north" (JNumber 1); Fire "expectCommand"]
           (final (init (loaded false "getline")))
           (Submitted "north" true false)).
  simpl. auto.
Defined.

(** X16: after [clearCommandQueue], no command queued before the call is
    ever submitted: in the session that follows, what is submitted and
    what stays queued are the commands queued after the call, in their
    order, and the key queue is not affected.  [clearKeyQueue] does the
    same for the keys and does not affect the commands. *)
Theorem clearing_forgets_what_was_queued :
  forall (acts : list action) (st : State),
    (let r := (clearCommandQueue ;; perform_all acts) st in
     outcome r = Normal tt /\
     submitted_commands (emitted r) ++ commandQueue (final r)
       = queued_commands acts /\
     keys_sent (emitted r) ++ map charCodeAt0 (keyQueue (final r))
       = map charCodeAt0 (keyQueue st ++ queued_keys acts)) /\
    (let r := (clearKeyQueue ;; perform_all acts) st in
     outcome r = Normal tt /\
     submitted_commands (emitted r) ++ commandQueue (final r)
       = commandQueue st ++ queued_commands acts /\
     keys_sent (emitted r) ++ map charCodeAt0 (keyQueue (final r))
       = map charCodeAt0 (queued_keys acts)).
Proof.
  intros acts st; split; cbv zeta.
  - destruct (conserves_perform_all acts (set_commandQueue [] st))
      as [[[] Ho] [Hc Hk]].
    unfold bind, clearCommandQueue, modify, outcome, final, emitted in *.
    cbn [fst snd] in *.
    destruct (perform_all acts (set_commandQueue [] st)) as [[c st2] tr2].
    cbn [fst snd app] in *. repeat split; auto.
  - destruct (conserves_perform_all acts (set_keyQueue [] st))
      as [[[] Ho] [Hc Hk]].
    unfold bind, clearKeyQueue, modify, outcome, final, emitted in *.
    cbn [fst snd] in *.
    destruct (perform_all acts (set_keyQueue [] st)) as [[c st2] tr2].
    cbn [fst snd app] in *. repeat split; auto.
Qed.

(** * The loop over the live registry *)

Section LiveLoop.

Variable body : filter_body.
Variable effect : InputFilter -> string -> InputFilterMeta -> State -> State.
Variables (originalInput : string) (meta : InputFilterMeta).

Abbreviation live_loop := (Live.filterLoop body effect).
Abbreviation live_meta := (filter_meta originalInput meta).

(** One turn of the loop, by what the registry holds at place [i] and by
    what the call and the await give. *)
Lemma live_filterLoop_S (fuel i : nat) (finalInput : string) (st : State) :
  live_loop (S fuel) i originalInput meta finalInput st =
  match nth_error (inputFilters st) i with
  | None => Some (Normal (JString finalInput), set_ui_blocked false st, [Unblock])
  | Some f =>
      let inv := Invoked i f finalInput (live_meta finalInput) (ui_blocked st) in
      let st1 := effect f finalInput (live_meta finalInput) st in
      match body f finalInput (live_meta finalInput) with
      | Throw e => Some (Throw e, st1, [inv])
      | Suspended => Some (Suspended, st1, [inv])
      | Normal r =>
          match awaited r with
          | Throw e => Some (Throw e, set_ui_blocked false st1, [inv; Unblock])
          | Suspended => Some (Suspended, st1, [inv])
          | Normal v =>
              match judge finalInput v with
              | Pass next =>
                  option_map (after [inv; Unblock])
                    (live_loop fuel (S i) originalInput meta next
                       (set_ui_blocked false st1))
              | Stop c texts =>
                  Some (c, set_ui_blocked false st1,
                        [inv; Unblock] ++ map ConsoleError texts)
              end
          end
      end
  end.
Proof.
  cbn [Live.filterLoop].
  destruct (nth_error (inputFilters st) i) as [f|]; [|reflexivity].
  cbv zeta.
  unfold Live.turn, bind at 1. unfold Live.invoke at 1, bind at 1 2 3,
    get, emit, modify, complete; simpl.
  destruct (body f finalInput (live_meta finalInput)) as [r|e|]; try reflexivity.
  unfold bind at 1, try_finally, await, complete, unblock, modify, emit; simpl.
  destruct (awaited r) as [v|e|]; try reflexivity. simpl.
  destruct v as [| |[|]|n|s| |[|]|msg]; simpl;
    unfold bind, error, emit, complete, ret; simpl; reflexivity.
Qed.

(** The seven ways a turn of the live loop can go, for a run [H] that
    succeeded. *)
Ltac live_turn H fuel i fin st :=
  rewrite live_filterLoop_S in H; cbv zeta in H;
  destruct (nth_error (inputFilters st) i) as [f0|] eqn:Hnth;
  [ destruct (body f0 fin (live_meta fin)) as [r0|e0|] eqn:Hbody;
    [ destruct (awaited r0) as [v0|e0|] eqn:Hawait;
      [ destruct (judge fin v0) as [next|c0 texts0] eqn:Hjudge;
        [ destruct (live_loop fuel (S i) originalInput meta next
                      (set_ui_blocked false
                         (effect f0 fin (live_meta fin) st)))
            as [r'|] eqn:Hrec; [|discriminate H]
        | ]
      | | ]
    | | ]
  | ];
  inversion H; subst; clear H;
  unfold after, outcome, final, emitted in *; cbn [fst snd app] in *.


Lemma live_index_range (fuel : nat) :
  forall i fin st r k f s m b,
    live_loop fuel i originalInput meta fin st = Some r ->
    In (Invoked k f s m b) (emitted r) ->
    i <= k.
Proof.
  induction fuel as [|fuel IH]; intros i fin st r k f s m b H Hin;
    [discriminate|].
  live_turn H fuel i fin st.
  - destruct Hin as [E|[E|Hin]]; [inversion E; lia | discriminate |].
    apply (IH _ _ _ _ _ _ _ _ _ Hrec) in Hin. lia.
  - destruct Hin as [E|[E|Hin]]; [inversion E; lia | discriminate |].
    now apply not_in_console_texts in Hin.
  - destruct Hin as [E|[E|[]]]; [inversion E; lia | discriminate].
  - destruct Hin as [E|[]]; inversion E; lia.
  - destruct Hin as [E|[]]; inversion E; lia.
  - destruct Hin as [E|[]]; inversion E; lia.
  - destruct Hin as [E|[]]; discriminate.
Qed.


Lemma skipn_nth_error_Some {A} (l : list A) :
  forall i x, nth_error l i = Some x -> skipn i l = x :: skipn (S i) l.
Proof.
  induction l as [|y l IH]; intros [|i] x H; simpl in *; try discriminate.
  - now inversion H.
  - now apply IH.
Qed.

Lemma skipn_nth_error_None {A} (l : list A) (i : nat) :
  nth_error l i = None -> skipn i l = [].
Proof. intro H. apply skipn_all2. now apply nth_error_None. Qed.

(** When the filters of the registry let the input through and leave the
    registry alone, the loop ends within one turn more than there are
    filters left, and is the left-to-right pass over them. *)
Lemma live_pass_quietly (fuel : nat) :
  forall i fin st,
    pass_quietly body effect originalInput meta (skipn i (inputFilters st)) fin ->
    List.length (inputFilters st) - i < fuel ->
    exists r,
      live_loop fuel i originalInput meta fin st = Some r /\
      outcome r =
        Normal (JString (fold_left (replaced body originalInput meta)
                                   (skipn i (inputFilters st)) fin)) /\
      emitted r =
        sequential_trace body originalInput meta (skipn i (inputFilters st))
                         i fin (ui_blocked st) /\
      inputFilters (final r) = inputFilters st /\
      ui_blocked (final r) = false.
Proof.
  induction fuel as [|fuel IH]; intros i fin st Hq Hfuel; [lia|].
  rewrite live_filterLoop_S.
  destruct (nth_error (inputFilters st) i) as [f|] eqn:Hnth.
  - assert (Hi : i < List.length (inputFilters st))
      by (apply nth_error_Some; congruence).
    rewrite (skipn_nth_error_Some _ _ _ Hnth) in *.
    destruct Hq as [Hthrough [Hkeep Hrest]]. cbv zeta.
    set (st1 := set_ui_blocked false (effect f fin (live_meta fin) st)).
    assert (Hreg : inputFilters st1 = inputFilters st) by apply Hkeep.
    destruct (IH (S i) (replaced body originalInput meta fin f) st1)
      as [r' [Hrun [Ho [Htr [Hfin Hub]]]]].
    { now rewrite Hreg. }
    { rewrite Hreg. lia. }
    rewrite Hreg in Ho, Htr.
    assert (Hnext : exists v,
               resolved (body f fin (live_meta fin)) = Normal v /\
               judge fin v = Pass (replaced body originalInput meta fin f)).
    { unfold replaced.
      destruct Hthrough as [E|[s' E]]; rewrite E; eexists; split; reflexivity. }
    destruct Hnext as [v [Hres Hj]].
    destruct (body f fin (live_meta fin)) as [r0|e|]; simpl in Hres;
      try discriminate.
    rewrite Hres, Hj. fold st1. rewrite Hrun.
    exists (after [Invoked i f fin (live_meta fin) (ui_blocked st); Unblock] r').
    unfold after, outcome, final, emitted in *; cbn [fst snd app option_map].
    split; [reflexivity|].
    split; [exact Ho|].
    split; [cbn [sequential_trace]; rewrite Htr; reflexivity|].
    split; [congruence | exact Hub].
  - rewrite (skipn_nth_error_None _ _ Hnth).
    eexists. split; [reflexivity|]. repeat split.
Qed.

End LiveLoop.

(** For filters that do nothing to the module, the loop over the live
    registry is the loop over the list read at the start. *)
Lemma live_filterLoop_without_effect (body : filter_body) (orig : string)
      (meta : InputFilterMeta) (fuel : nat) :
  forall i fin st,
    List.length (inputFilters st) - i < fuel ->
    Live.filterLoop body no_effect fuel i orig meta fin st =
    Some (filterLoop body (skipn i (inputFilters st)) i orig meta fin st).
Proof.
  induction fuel as [|fuel IH]; intros i fin st Hfuel; [lia|].
  rewrite live_filterLoop_S.
  destruct (nth_error (inputFilters st) i) as [f|] eqn:Hnth.
  - assert (Hi : i < List.length (inputFilters st))
      by (apply nth_error_Some; congruence).
    rewrite (skipn_nth_error_Some _ _ _ Hnth), filterLoop_cons. cbv zeta.
    unfold no_effect.
    destruct (body f fin (filter_meta orig meta fin)) as [r0|e|];
      try reflexivity.
    destruct (awaited r0) as [v|e|]; try reflexivity.
    destruct (judge fin v) as [next|c texts]; try reflexivity.
    rewrite IH by (simpl; lia). reflexivity.
  - rewrite (skipn_nth_error_None _ _ Hnth). reflexivity.
Qed.

Lemma live_without_effect (body : filter_body) (orig : string)
      (meta : InputFilterMeta) (st : State) (fuel : nat) :
  List.length (inputFilters st) < fuel ->
  Live.applyInputFilters body no_effect fuel orig meta st =
  Some (applyInputFilters body orig meta st).
Proof.
  intro Hfuel. unfold Live.applyInputFilters.
  change (block st) with (Normal tt, set_ui_blocked true st, [Block]).
  cbv beta iota.
  rewrite live_filterLoop_without_effect by (simpl; lia).
  rewrite applyInputFilters_run. reflexivity.
Qed.


Lemma live_applyInputFilters_run (body : filter_body)
      (effect : InputFilter -> string -> InputFilterMeta -> State -> State)
      (fuel : nat) (orig : string) (meta : InputFilterMeta) (st : State) :
  Live.applyInputFilters body effect fuel orig meta st =
  option_map (after [Block])
    (Live.filterLoop body effect fuel 0 orig meta orig (set_ui_blocked true st)).
Proof. reflexivity. Qed.

(** * applyInputFilters over a registry that its filters change *)

(** C4: three registered filters and the line ["look"]; filter 0 returns
    [true] and removes its own registration while it is called, filter 1
    returns ["b"], filter 2 returns [true].  The loop reads the registry
    at every turn: after the call of filter 0 the registry is [1; 2], so
    the turn of index 1 calls filter 2, filter 1 is never called although
    it stays registered, and the routine returns ["look"].  With the same
    filters and no removal the three filters are called in the order of
    the registry and the routine returns ["b"]. *)
Theorem applyInputFilters_skips_after_removal :
  forall n : nat,
    Live.applyInputFilters second_rewrites first_removes_itself (3 + n)
                           "look" typed (registered [0; 1; 2]) =
    Some (Normal (JString "look"),
          set_ui_blocked false (registered [1; 2]),
          [ Block;
            Invoked 0 0 "look" (filter_meta "look" typed "look") true; Unblock;
            Invoked 1 2 "look" (filter_meta "look" typed "look") false; Unblock;
            Unblock ]) /\
    Live.applyInputFilters second_rewrites no_effect (4 + n)
                           "look" typed (registered [0; 1; 2]) =
    Some (Normal (JString "b"),
          set_ui_blocked false (registered [0; 1; 2]),
          [ Block;
            Invoked 0 0 "look" (filter_meta "look" typed "look") true; Unblock;
            Invoked 1 1 "look" (filter_meta "look" typed "look") false; Unblock;
            Invoked 2 2 "b" (filter_meta "look" typed "b") false; Unblock;
            Unblock ]).
Proof. intro n. split; reflexivity. Qed.



(** X17: when each registered filter, called on the input that the
    filters before it left, returns [true] or a string (directly or
    through a promise) and does not change the registry, the routine
    finishes within one turn more than there are filters: the filters
    are called one after the other in the order of the registry, each
    call after the await of the call before it, a string result replaces
    the input for the filters that follow, [true] leaves it, and the
    routine returns the input that the last filter left, with the UI
    open and the registry as it was. *)
Theorem applyInputFilters_sequential_pass :
  forall (body : filter_body)
         (effect : InputFilter -> string -> InputFilterMeta -> State -> State)
         (st : State) (orig : string) (meta : InputFilterMeta) (fuel : nat),
    pass_quietly body effect orig meta (inputFilters st) orig ->
    List.length (inputFilters st) < fuel ->
    exists r,
      Live.applyInputFilters body effect fuel orig meta st = Some r /\
      outcome r =
        Normal (JString (fold_left (replaced body orig meta)
                                   (inputFilters st) orig)) /\
      emitted r =
        Block :: sequential_trace body orig meta (inputFilters st) 0 orig true /\
      inputFilters (final r) = inputFilters st /\
      ui_blocked (final r) = false.
Proof.
  intros body effect st orig meta fuel Hq Hfuel.
  destruct (live_pass_quietly body effect orig meta fuel 0 orig
              (set_ui_blocked true st)) as [r0 [Hrun [Ho [Htr [Hreg Hub]]]]].
  - exact Hq.
  - simpl. lia.
  - exists (after [Block] r0).
    rewrite live_applyInputFilters_run, Hrun.
    unfold after, outcome, final, emitted in *; cbn [fst snd app] in *.
    split; [reflexivity|].
    split; [exact Ho|].
    split; [now rewrite Htr|].
    split; [exact Hreg | exact Hub].
Qed.

Lemma applyInputFilters_sequential_pass_witness :
  exists r,
    Live.applyInputFilters rewrite_twice no_effect 4 "go" typed
                           (registered [0; 1; 2]) = Some r /\
    outcome r = Normal (JString "go north!") /\
    emitted r =
      [ Block;
        Invoked 0 0 "go" (filter_meta "go" typed "go") true; Unblock;
        Invoked 1 1 "go north" (filter_meta "go" typed "go north") false; Unblock;
        Invoked 2 2 "go north" (filter_meta "go" typed "go north") false; Unblock;
        Unblock ] /\
    inputFilters (final r) = [0; 1; 2] /\
    ui_blocked (final r) = false.
Proof.
  apply (applyInputFilters_sequential_pass rewrite_twice no_effect
           (registered [0; 1; 2]) "go" typed 4).
  - simpl. repeat split; try (right; eexists; reflexivity); now left.
  - simpl. lia.
Defined.
